(** * Sound localization with HRTFs (Goodman & Brette 2010, Fig. 12A)

    A shallow embedding of [hearing/Fig12A_Goodman_Brette_2010.py] and of the
    library calls (numpy, brian, brian.hears) the script is made of, with the
    properties of its decoder, its channel plumbing, its cochlear
    nonlinearity and its wiring loop.

    Conventions.
    - A Python exception is [None]; a call that returns is [Some].
    - Integer arrays (spike counts) are lists of [Z]; the arithmetic numpy
      does on them is that of 64-bit integers and wraps around ([wrap64]).
    - The simulation itself (line 71: noise-driven neurons in continuous
      time) is not modelled: the spike counts it leaves in the counter are
      an arbitrary vector of integers.
    - A float64 score is a [score]: one of the IEEE special values, or a
      finite value, kept as the rational number it is.  Every float64
      operation of the decoder (the conversion of a count, the division,
      the product with 100) is the exact operation followed by
      [b64_round], the rounding to the nearest number with a 53-bit
      significand, ties to even.  Its operands are 64-bit integers and
      their quotients, far inside the exponent range of float64, so the
      exponent is left unbounded.  [fdiv_is_binary64_division] checks the
      division against the binary64 division of the Standard Library.
    - The cochlear nonlinearity is stated on real numbers, with nan and
      infinity as the two other outcomes of a power.
    - Audio samples of the linear filter stages are kept abstract: the
      channel plumbing does not depend on the arithmetic of a convolution. *)

From Stdlib Require Import ZArith QArith Qround Qabs Qpower Lqa.
From Stdlib Require Import Reals Lra Lia List SpecFloat.
From stdpp Require Import base option list gmap.

Open Scope nat_scope.

(** ** numpy *)

(** An [ndarray] of integers: the flat buffer in C order and the shape. *)
Record ndarray := mk_ndarray { data : list Z; shape : list nat }.

(** [numpy.ndarray.size] of a shape: the product of its dimensions. *)
Definition shape_size (s : list nat) : nat := foldr Nat.mul 1 s.

(** A one-dimensional array, as [SpikeCounter.count] is created. *)
Definition array1d (l : list Z) : ndarray := mk_ndarray l [length l].

(** [a.shape = s]: reshapes in place, raises [ValueError] when the total
    size changes.  The buffer is shared, only the shape is replaced. *)
Definition set_shape (a : ndarray) (s : list nat) : option ndarray :=
  if decide (shape_size s = length (data a)) then Some (mk_ndarray (data a) s)
  else None.

(** [a[i, j]] of a two-dimensional C-contiguous array with [c] columns. *)
Definition get2 (a : ndarray) (c i j : nat) : Z := nth (i * c + j) (data a) 0%Z.

(** The 64-bit integer that the two's complement arithmetic of an integer
    array leaves in place of [z]. *)
Definition wrap64 (z : Z) : Z := ((z + 2 ^ 63) mod 2 ^ 64 - 2 ^ 63)%Z.

(** [sum(a, axis=1)] of a two-dimensional array: one sum per row, added up
    in the array's own 64-bit integers; raises for an array that has no
    axis 1 (and is not modelled above rank 2). *)
Definition sum_axis1 (a : ndarray) : option (list Z) :=
  match shape a with
  | [r; c] =>
      Some (map (fun i =>
                   foldl (fun acc j => wrap64 (acc + get2 a c i j)) 0%Z (seq 0 c))
                (seq 0 r))
  | _ => None
  end.

(** [amax] of a one-dimensional integer array; [ValueError] when empty. *)
Definition amax (l : list Z) : option Z :=
  match l with
  | [] => None
  | x :: rest => Some (foldl Z.max x rest)
  end.

(** *** float64 *)

(** 2^e, for an exponent of either sign. *)
Definition pow2 (e : Z) : Q := (2 ^ e)%Q.

(** The binade of a positive [q]: 2^(mag q - 1) <= q < 2^(mag q). *)
Definition mag (q : Q) : Z :=
  let k := (Z.log2 (Qnum q) - Z.log2 (Zpos (Qden q)))%Z in
  if Qle_bool (pow2 k) q then (k + 1)%Z else k.

(** The integer nearest to [r], the even one of the two when [r] lies
    half-way. *)
Definition rne (r : Q) : Z :=
  let f := Qfloor r in
  match (r - inject_Z f ?= 1 # 2)%Q with
  | Lt => f
  | Gt => (f + 1)%Z
  | Eq => if Z.even f then f else (f + 1)%Z
  end.

(** A positive [q] rounded to 53 significant bits: its significand,
    scaled into [2^52, 2^53), is rounded to an integer. *)
Definition round_pos (q : Q) : Q :=
  let e := (mag q - 53)%Z in
  (inject_Z (rne (q / pow2 e)) * pow2 e)%Q.

(** The float64 that an exact result [q] is rounded to (round to nearest,
    ties to even), in lowest terms so that equal values are equal terms. *)
Definition b64_round (q : Q) : Q :=
  let q := Qred q in
  match (0 ?= q)%Q with
  | Eq => 0%Q
  | Lt => Qred (round_pos q)
  | Gt => Qred (- round_pos (- q))
  end.

(** A float64 value as the decoder sees it.  The two zeros of float64 are
    one value here: they compare equal, so no comparison of the decoder
    tells them apart. *)
Inductive score : Type :=
  | Fin (q : Q)
  | PInf
  | NInf
  | NaN.

(** [array(count, dtype=float) / m], one entry: both 64-bit integers are
    converted to float64, then divided in float64.  Division by zero does
    not raise (numpy warns only): it gives nan for 0/0 and a signed
    infinity otherwise. *)
Definition fdiv (x m : Z) : score :=
  if (m =? 0)%Z then
    (if (x =? 0)%Z then NaN else if (0 <? x)%Z then PInf else NInf)
  else Fin (b64_round (b64_round (inject_Z x) / b64_round (inject_Z m))).

Definition is_nan (s : score) : bool :=
  match s with NaN => true | _ => false end.

(** IEEE [<=]: false as soon as one side is nan. *)
Definition score_le (a b : score) : bool :=
  match a, b with
  | NaN, _ | _, NaN => false
  | NInf, _ => true
  | _, PInf => true
  | Fin p, Fin q => Qle_bool p q
  | _, _ => false
  end.

Section Argmax.
Context {A : Type}.
(** [replaces x mp]: the entry [x] takes the place of the running maximum
    [mp]; [nan x]: the scan stops at [x]. *)
Variable replaces : A -> A -> bool.
Variable nan : A -> bool.

(** The scan of numpy's argmax over the entries after the first: [mp] is
    the running maximum, [max_ind] its index, [i] the index of the head
    of [ip]. *)
Fixpoint argmax_loop (mp : A) (max_ind i : nat) (ip : list A) : nat :=
  match ip with
  | [] => max_ind
  | x :: rest =>
      if replaces x mp then
        (if nan x then i else argmax_loop x i (S i) rest)
      else argmax_loop mp max_ind (S i) rest
  end.

(** [ValueError] on an empty sequence; a nan in front is maximal. *)
Definition argmax_with (l : list A) : option nat :=
  match l with
  | [] => None
  | x :: rest => Some (if nan x then 0 else argmax_loop x 0 1 rest)
  end.
End Argmax.

(** [argmax] of a float array: an entry replaces the maximum when
    [!(x <= mp)], so the first nan wins, otherwise the first largest. *)
Definition argmax : list score -> option nat :=
  argmax_with (fun x mp => negb (score_le x mp)) is_nan.

(** [argmax] of an integer array: an entry replaces the maximum when
    [x > mp]. *)
Definition argmax_int : list Z -> option nat :=
  argmax_with (fun x mp => (x >? mp)%Z) (fun _ => false).

(** [randint(low)]: the values a draw can return, [0 <= i < low];
    [ValueError] (no outcome) when [low] is 0. *)
Definition randint (low : nat) : list nat := seq 0 low.

(** ** The decoder (script lines 74-79) *)

(** Line 77: [array(count, dtype=float)/amax(count)]. *)
Definition normalize (sums : list Z) : option (list score) :=
  m ← amax sums;
  Some (map (fun x => fdiv x m) sums).

(** Lines 74-79.  [count = counter.count] binds the counter's own array, so
    the assignment to [count.shape] reshapes the counter's array in place:
    the first component of the result is the counter's array afterwards.
    [count] is then rebound to fresh arrays: the per-location sums, then
    the normalised scores. *)
Definition decode (num_indices cfN : nat) (counter_count : ndarray)
  : option (ndarray * (list score * nat)) :=
  count ← set_shape counter_count [num_indices; cfN];
  sums ← sum_axis1 count;
  scores ← normalize sums;
  index_guess ← argmax scores;
  Some (count, (scores, index_guess)).

(** Lines 74-76 alone: the per-location sums. *)
Definition location_sums (num_indices cfN : nat) (counter_count : ndarray)
  : option (list Z) :=
  count ← set_shape counter_count [num_indices; cfN];
  sum_axis1 count.

(** The estimate of a run. *)
Definition index_guess_of (r : ndarray * (list score * nat)) : nat := r.2.2.

(** The estimate read off the per-location sums themselves, before line 77:
    what [argmax] gives when the division is left out. *)
Definition raw_index_guess (num_indices cfN : nat) (counter_count : ndarray)
  : option nat :=
  sums ← location_sums num_indices cfN counter_count;
  argmax_int sums.

(** ** The division against the binary64 of the Standard Library *)

Definition b64_of_Z (x : Z) : spec_float := binary_normalize 53 1024 x 0 false.

Definition b64_div (x m : Z) : spec_float :=
  SFdiv 53 1024 (b64_of_Z x) (b64_of_Z m).

(** The [score] that a binary64 value is. *)
Definition score_of_b64 (f : spec_float) : score :=
  match f with
  | S754_zero _ => Fin 0
  | S754_infinity s => if s then NInf else PInf
  | S754_nan => NaN
  | S754_finite s m e =>
      Fin (Qred ((if s then -1 else 1) * inject_Z (Zpos m) * pow2 e))
  end.

Definition score_eqb (a b : score) : bool :=
  match a, b with
  | Fin p, Fin q => Z.eqb (Qnum p) (Qnum q) && Pos.eqb (Qden p) (Qden q)
  | PInf, PInf | NInf, NInf | NaN, NaN => true
  | _, _ => false
  end.

(** [fdiv] and the binary64 division give the same value, for every pair
    of a dividend and a divisor taken from two lists. *)
Definition fdiv_matches_b64 (xs ms : list Z) : bool :=
  forallb (fun m => forallb (fun x => score_eqb (fdiv x m)
                                        (score_of_b64 (b64_div x m))) xs) ms.

(** Small counts; counts around 2^53, where the conversion starts to
    round; and counts spread over the 64-bit range. *)
Definition small_counts : list Z := map Z.of_nat (seq 0 48).
Definition counts_near_2_53 : list Z :=
  map (fun i => (2 ^ 53 - 12 + Z.of_nat i)%Z) (seq 0 24).
Definition wide_counts : list Z :=
  map (fun i => (- 2 ^ 63 + 768614336404564651 * Z.of_nat i)%Z) (seq 0 24)
  ++ [2 ^ 63 - 1; 2 ^ 62; 3 * 2 ^ 60 + 1; 2 ^ 54 + 2; 2 ^ 54 + 6; 13; 3; 1; -1]%Z.

(** ** brian.hears: sounds and filterbanks *)

Section Hears.
(** A sample, the convolution of a channel with an impulse response
    ([convolve ir x]) and a gammatone filter at a centre frequency. *)
Context {sample freq : Type}.
Variable convolve : list sample -> list sample -> list sample.
Variable gammatone : freq -> list sample -> list sample.

(** What a sound or a filterbank outputs: its channels, in order;
    [nchannels] is the length. *)
Local Abbreviation fbank := (list (list sample)).

(** [RestructureFilterbank(source, indexmapping=m)]: output channel [k]
    is source channel [m[k]]; [IndexError] when [m] names no channel. *)
Definition RestructureFilterbank (source : fbank) (indexmapping : list nat)
  : option fbank :=
  mapM (fun k => source !! k) indexmapping.

(** The index mapping of [numrepeat] repeats: [repeat(arange(n), r)],
    each channel [r] times in a row (AB becomes AA..BB..). *)
Definition repeat_mapping (nchannels numrepeat : nat) : list nat :=
  flat_map (fun k => replicate numrepeat k) (seq 0 nchannels).

(** [Repeat(source, numrepeat)]. *)
Definition Repeat (source : fbank) (numrepeat : nat) : option fbank :=
  RestructureFilterbank source (repeat_mapping (length source) numrepeat).

(** [tile(cf, reps)]: the whole array, [reps] times. *)
Definition tile {X : Type} (cf : list X) (reps : nat) : list X :=
  concat (replicate reps cf).

(** [FIRFilterbank(source, impulse_response)]: one impulse response per
    output channel; a mono source is repeated to fit, any other mismatch
    is a [ValueError]. *)
Definition FIRFilterbank (source : fbank) (impulse_response : list (list sample))
  : option fbank :=
  src ← (if decide (length impulse_response = length source) then Some source
         else if decide (length source = 1)
              then Repeat source (length impulse_response)
              else None);
  Some (zip_with convolve impulse_response src).

(** [Gammatone(source, cf)]: channel [k] filtered at [cf[k]]; one centre
    frequency per channel is required. *)
Definition Gammatone (source : fbank) (cf : list freq) : option fbank :=
  if decide (length cf = length source) then Some (zip_with gammatone cf source)
  else None.

(** [FunctionFilterbank(source, f)] with an elementwise [f]. *)
Definition FunctionFilterbank (source : fbank) (f : sample -> sample) : fbank :=
  map (map f) source.

(** An [HRTF]: the pair of impulse responses of one location. *)
Record HRTF := mk_HRTF { left : list sample; right : list sample }.

(** [hrtf.filterbank(source)]: the source must be mono; channel 0 is
    the left ear, channel 1 the right ear. *)
Definition HRTF_filterbank (h : HRTF) (source : fbank) : option fbank :=
  if decide (1 < length source) then None
  else FIRFilterbank source [left h; right h].

(** An [HRTFSet]: the HRTFs of the stored locations and the
    (azimuth, elevation) of each, in degrees. *)
Record HRTFSet := mk_HRTFSet { hrtf : list HRTF; coordinates : list (Z * Z) }.

Definition num_indices (hs : HRTFSet) : nat := length (hrtf hs).
Definition azim (hs : HRTFSet) : list Z := map fst (coordinates hs).
Definition elev (hs : HRTFSet) : list Z := map snd (coordinates hs).

(** [hrtfset.filterbank(source)], not interleaved: the impulse responses
    are stacked as all left ears, then all right ears (LL..RR..). *)
Definition HRTFSet_filterbank (hs : HRTFSet) (source : fbank) : option fbank :=
  FIRFilterbank source (map left (hrtf hs) ++ map right (hrtf hs)).

(** *** The filter stages of the script (lines 34-53) *)

(** Line 36, with the lookup of line 34. *)
Definition hrtf_fb (hs : HRTFSet) (index : nat) (sound : fbank) : option fbank :=
  h ← hrtf hs !! index;
  HRTF_filterbank h sound.

(** Line 39. *)
Definition swapped_channels (hs : HRTFSet) (index : nat) (sound : fbank)
  : option fbank :=
  fb ← hrtf_fb hs index sound;
  RestructureFilterbank fb [1; 0].

(** Line 42. *)
Definition hrtfset_fb (hs : HRTFSet) (index : nat) (sound : fbank)
  : option fbank :=
  sw ← swapped_channels hs index sound;
  rep ← Repeat sw (num_indices hs);
  HRTFSet_filterbank hs rep.

(** Lines 50-51; [cf] is the result of [erbspace], [cfN] its length. *)
Definition gfb (cf : list freq) (hs : HRTFSet) (index : nat) (sound : fbank)
  : option fbank :=
  fb ← hrtfset_fb hs index sound;
  rep ← Repeat fb (length cf);
  Gammatone rep (tile cf (length fb)).

(** Line 53, for the nonlinearity [f]. *)
Definition cochlea (f : sample -> sample) (cf : list freq) (hs : HRTFSet)
    (index : nat) (sound : fbank) : option fbank :=
  fb ← gfb cf hs index sound;
  Some (FunctionFilterbank fb f).
End Hears.

Arguments HRTF : clear implicits.
Arguments HRTFSet : clear implicits.

Abbreviation fbank sample := (list (list sample)) (only parsing).

(** Lines 84-85: the four coordinate lookups of the two markers. *)
Definition plot_markers {sample : Type} (hs : HRTFSet sample) (index index_guess : nat)
  : option ((Z * Z) * (Z * Z)) :=
  a ← azim hs !! index;
  e ← elev hs !! index;
  a' ← azim hs !! index_guess;
  e' ← elev hs !! index_guess;
  Some ((a, e), (a', e')).

(** ** The cochlear nonlinearity (line 53), on real samples *)

Open Scope R_scope.

(** What an elementwise float operation gives: a real number, nan or
    +infinity. *)
Inductive fval : Type :=
  | Real (v : R)
  | Nan
  | PosInf.

(** The upper bound [Inf] of [clip]: no bound. *)
Definition Inf : option R := None.

(** [clip(x, a_min, a_max)]: [minimum(a_max, maximum(x, a_min))]. *)
Definition clip (x a_min : R) (a_max : option R) : R :=
  match a_max with
  | Some hi => Rmin hi (Rmax x a_min)
  | None => Rmax x a_min
  end.

(** [x ** y]: exp(y ln x) for a positive base; for a negative base the
    integer power when the exponent is an integer, and nan otherwise; at
    base 0 it is 0, infinity or 1, by the sign of the exponent. *)
Definition power (x y : R) : fval :=
  if Rlt_dec 0 x then Real (Rpower x y)
  else if Rlt_dec x 0 then
    (if Req_dec_T (IZR (Int_part y)) y then Real (powerRZ x (Int_part y))
     else Nan)
  else if Rlt_dec 0 y then Real 0
  else if Rlt_dec y 0 then PosInf
  else Real 1.

(** [a * v] for a positive factor [a]. *)
Definition scale (a : R) (v : fval) : fval :=
  match v with
  | Real r => Real (a * r)
  | Nan => Nan
  | PosInf => PosInf
  end.

(** [lambda x: 15*clip(x, 0, Inf)**(1.0/3.0)]; [**] binds tighter
    than [*]. *)
Definition cochlea_lambda (x : R) : fval :=
  scale 15 (power (clip x 0 Inf) (1 / 3)).

(** The real number the lambda returns; it returns one for every sample
    ([cochlea_lambda_real]). *)
Definition cochlea_fn (x : R) : R :=
  match cochlea_lambda x with
  | Real v => v
  | _ => 0
  end.

Close Scope R_scope.

(** ** brian: the connection matrix and the wiring loop (lines 64-67) *)

(** [Connection(G, cd, 'V')]: a sparse matrix of weights from the
    [nsrc = len(G)] source units to the [ntgt = len(cd)] target units. *)
Record Connection := mk_Connection {
  nsrc : nat;
  ntgt : nat;
  W : gmap (nat * nat) Q
}.

Definition Connection_new (lenG lencd : nat) : Connection :=
  mk_Connection lenG lencd ∅.

(** [C[i, j] = w]; [IndexError] outside the matrix. *)
Definition setitem (C : Connection) (i j : nat) (w : Q) : option Connection :=
  if decide (i < nsrc C ∧ j < ntgt C)
  then Some (mk_Connection (nsrc C) (ntgt C) (<[(i, j) := w]> (W C)))
  else None.

(** A [for] loop over a list of indices, stopped by the first exception. *)
Fixpoint for_each {S : Type} (body : S -> nat -> option S) (s : S) (l : list nat)
  : option S :=
  match l with
  | [] => Some s
  | i :: rest => s' ← body s i; for_each body s' rest
  end.

(** Lines 66-67, with [N = num_indices*cfN]. *)
Definition wire_body (N : nat) (C : Connection) (i : nat) : option Connection :=
  C1 ← setitem C i i (1 # 2)%Q;
  setitem C1 (i + N) i (1 # 2)%Q.

(** Lines 64-67: [G] has one unit per channel of [cochlea], [cd] has
    [num_indices*cfN] units. *)
Definition wire (lenG num_indices cfN : nat) : option Connection :=
  let N := num_indices * cfN in
  for_each (wire_body N) (Connection_new lenG N) (seq 0 N).

(** The source units connected to target unit [j], in increasing order. *)
Definition inputs (C : Connection) (j : nat) : list nat :=
  filter (fun i => is_Some (W C !! (i, j))) (seq 0 (nsrc C)).

(** ** The decoding algorithm as the specification words it *)

(** "reshape the spike-count vector to (num_locations, num_frequencies)":
    [rows] consecutive rows of [cols] entries. *)
Fixpoint spec_reshape (rows cols : nat) (v : list Z) : list (list Z) :=
  match rows with
  | 0 => []
  | S r => take cols v :: spec_reshape r cols (drop cols v)
  end.

(** The sum of the entries of each row. *)
Definition spec_sum_over_frequency (grid : list (list Z)) : list Z :=
  map (fun row => foldr Z.add 0%Z row) grid.

(** "sum over frequency": one total per location, as the 64-bit integer
    that an integer array holds. *)
Definition spec_totals (num_locations num_frequencies : nat) (v : list Z)
  : list Z :=
  map wrap64
      (spec_sum_over_frequency (spec_reshape num_locations num_frequencies v)).

(** "the maximum" of the totals. *)
Definition spec_max (totals : list Z) : Z :=
  foldr Z.max (hd 0%Z totals) totals.

(** A float64 number: an integer of at most 53 bits times a power of 2. *)
Definition representable (f : Q) : Prop :=
  ∃ k e : Z, (Z.abs k <= 2 ^ 53)%Z ∧ (f == inject_Z k * pow2 e)%Q.

(** [f] is a float64 number, and no float64 number is nearer to [q]. *)
Definition nearest (q f : Q) : Prop :=
  representable f
  ∧ ∀ f', representable f' → (Qabs (f - q) <= Qabs (f' - q))%Q.

(** "normalize by the maximum": [s] is the total [x] divided by the
    maximum [m] in float64: a float64 nearest to the quotient of the
    float64 numbers nearest to [x] and to [m]; nan or an infinity when
    [m] is 0. *)
Definition is_quotient (x m : Z) (s : score) : Prop :=
  if (m =? 0)%Z then
    s = (if (x =? 0)%Z then NaN else if (0 <? x)%Z then PInf else NInf)
  else
    ∃ fx fm f, nearest (inject_Z x) fx ∧ nearest (inject_Z m) fm
               ∧ nearest (fx / fm) f ∧ s = Fin f.

(** [t] does not exceed [s], nan counting as the greatest value. *)
Definition not_above (t s : score) : bool := is_nan s || score_le t s.

(** "take the arg-max": [g] is the first index whose entry no entry
    exceeds. *)
Definition is_argmax (l : list score) (g : nat) : Prop :=
  ∃ s, l !! g = Some s
       ∧ (∀ k t, l !! k = Some t → not_above t s = true)
       ∧ (∀ k t, k < g → l !! k = Some t → not_above s t = false).

(** The scores that line 77 leaves for sums that are not empty. *)
Definition scores_of_sums (sums : list Z) : list score :=
  map (fun x => fdiv x (spec_max sums)) sums.

(** ** The rest of the wiring and of the plot *)

(** The target units that source unit [i] is connected to, in increasing
    order. *)
Definition targets (C : Connection) (i : nat) : list nat :=
  filter (fun j => is_Some (W C !! (i, j))) (seq 0 (ntgt C)).

(** [a * s] for a float64 [s]: the rounded product; a product with an
    infinity keeps or flips the sign, and is nan for [a = 0]. *)
Definition smul (a : Q) (s : score) : score :=
  match s with
  | Fin q => Fin (b64_round (a * q))
  | NaN => NaN
  | PInf => match (0 ?= a)%Q with Lt => PInf | Gt => NInf | Eq => NaN end
  | NInf => match (0 ?= a)%Q with Lt => NInf | Gt => PInf | Eq => NaN end
  end.

(** The normalised scores of a run: [count] as line 83 reads it. *)
Definition count_of (r : ndarray * (list score * nat)) : list score := r.2.1.

(** Line 83: the marker sizes [100*count] handed to [scatter]. *)
Definition scatter_sizes (count : list score) : list score :=
  map (smul 100) count.

(** ** Small concrete instances *)

(** A direct-form FIR filter on integer samples: output sample [n] is the
    sum of [ir[k] * x[n-k]] over the taps [k <= n]. *)
Definition demo_convolve (ir x : list Z) : list Z :=
  map (fun n =>
         foldr Z.add 0%Z
           (map (fun k => (nth k ir 0 * nth (n - k) x 0)%Z) (seq 0 (S n))))
      (seq 0 (length x)).

(** A stand-in for a band-pass filter: a gain per centre frequency. *)
Definition demo_gain (f : Z) (x : list Z) : list Z := map (Z.mul f) x.

(** Two locations with one- and two-tap impulse responses. *)
Definition demo_hrtfset : HRTFSet Z :=
  mk_HRTFSet [mk_HRTF [1; 0]%Z [2; 1]%Z; mk_HRTF [3]%Z [5; 1]%Z]
             [(0, 0)%Z; (15, 0)%Z].

Definition demo_sound : fbank Z := [[1; 2; 0; -1]%Z].

(** Spike counts of two locations and three frequencies. *)
Definition demo_counts : list Z := [1; 2; 3; 4; 0; 9]%Z.

(** * Properties *)

(** ** Rounding to float64

    [b64_round q] is a float64 number and none is nearer to [q]; hence it
    leaves float64 numbers as they are and never reverses an order. *)

Lemma pow2_pos (e : Z) : (0 < pow2 e)%Q.
Proof. apply Qpower_0_lt. reflexivity. Qed.

Lemma pow2_add (a b : Z) : (pow2 (a + b) == pow2 a * pow2 b)%Q.
Proof. apply Qpower_plus. discriminate. Qed.

Lemma pow2_0 : (pow2 0 == 1)%Q.
Proof. reflexivity. Qed.

Lemma pow2_1 : (pow2 1 == 2)%Q.
Proof. reflexivity. Qed.

Lemma pow2_succ (e : Z) : (pow2 (e + 1) == 2 * pow2 e)%Q.
Proof. rewrite pow2_add, pow2_1. Lqa.lra. Qed.

Lemma pow2_Z (e : Z) : (0 <= e)%Z → (pow2 e == inject_Z (2 ^ e))%Q.
Proof. intros He. unfold pow2. by rewrite Zpower_Qpower. Qed.

Lemma pow2_le (a b : Z) : (a <= b)%Z → (pow2 a <= pow2 b)%Q.
Proof.
  intros Hab. replace b with (a + (b - a))%Z by lia.
  rewrite pow2_add. rewrite (pow2_Z (b - a)) by lia.
  assert (0 < 2 ^ (b - a))%Z by (apply Z.pow_pos_nonneg; lia).
  assert (H1 : (1 <= inject_Z (2 ^ (b - a)))%Q) by (change 1%Q with (inject_Z 1); rewrite <- Zle_Qle; lia).
  pose proof (pow2_pos a). Lqa.nra.
Qed.

Lemma pow2_lt (a b : Z) : (a < b)%Z → (pow2 a < pow2 b)%Q.
Proof.
  intros Hab. apply Qlt_le_trans with (pow2 (a + 1)).
  - rewrite pow2_succ. pose proof (pow2_pos a). Lqa.lra.
  - apply pow2_le. lia.
Qed.

Lemma Q_num_den (q : Q) : (q * inject_Z (Zpos (Qden q)) == inject_Z (Qnum q))%Q.
Proof. destruct q as [a b]. unfold Qeq. simpl. lia. Qed.

Lemma Qnum_pos (q : Q) : (0 < q)%Q → (0 < Qnum q)%Z.
Proof. destruct q as [a b]. unfold Qlt. simpl. lia. Qed.

Lemma inject_Z_le (a b : Z) : (a <= b)%Z → (inject_Z a <= inject_Z b)%Q.
Proof. intros. by rewrite <- Zle_Qle. Qed.

Lemma inject_Z_lt (a b : Z) : (a < b)%Z → (inject_Z a < inject_Z b)%Q.
Proof. intros. by rewrite <- Zlt_Qlt. Qed.

Lemma mag_spec (q : Q) :
  (0 < q)%Q → (pow2 (mag q - 1) <= q)%Q ∧ (q < pow2 (mag q))%Q.
Proof.
  intros Hq.
  pose proof (Qnum_pos q Hq) as Ha.
  pose proof (Q_num_den q) as Hnd.
  set (a := Qnum q) in *. set (b := Qden q) in *.
  pose proof (Z.log2_spec a Ha) as [Ha1 Ha2].
  pose proof (Z.log2_spec (Zpos b) eq_refl) as [Hb1 Hb2].
  pose proof (Z.log2_nonneg a) as Hla.
  pose proof (Z.log2_nonneg (Zpos b)) as Hlb.
  set (la := Z.log2 a) in *. set (lb := Z.log2 (Zpos b)) in *.
  apply inject_Z_le in Ha1, Hb1. apply inject_Z_lt in Ha2, Hb2.
  rewrite <- !pow2_Z in Ha1, Hb1 by lia.
  replace (Z.succ la) with (la + 1)%Z in Ha2 by lia.
  replace (Z.succ lb) with (lb + 1)%Z in Hb2 by lia.
  rewrite <- !pow2_Z in Ha2, Hb2 by lia.
  assert (Hup : (q < pow2 (la - lb + 1))%Q).
  { pose proof (pow2_add (la - lb + 1) lb) as Hm.
    replace (la - lb + 1 + lb)%Z with (la + 1)%Z in Hm by lia.
    pose proof (pow2_pos lb). pose proof (pow2_pos (la - lb + 1)).
    destruct (Qlt_le_dec q (pow2 (la - lb + 1))) as [|Hge]; [done|].
    exfalso. Lqa.nra. }
  assert (Hlo : (pow2 (la - lb - 1) < q)%Q).
  { pose proof (pow2_add (la - lb - 1) (lb + 1)) as Hm.
    replace (la - lb - 1 + (lb + 1))%Z with la in Hm by lia.
    pose proof (pow2_pos (lb + 1)). pose proof (pow2_pos (la - lb - 1)).
    destruct (Qlt_le_dec (pow2 (la - lb - 1)) q) as [|Hge]; [done|].
    exfalso. Lqa.nra. }
  unfold mag. fold a b. fold la lb.
  destruct (Qle_bool (pow2 (la - lb)) q) eqn:Hc.
  - apply Qle_bool_iff in Hc.
    replace (la - lb + 1 - 1)%Z with (la - lb)%Z by lia. done.
  - split; [by apply Qlt_le_weak|].
    destruct (Qlt_le_dec q (pow2 (la - lb))) as [|Hge]; [done|].
    apply Qle_bool_iff in Hge. congruence.
Qed.

(** |x| <= |y|, by the sign of [y]. *)
Lemma Qabs_le_intro (x y : Q) :
  ((0 <= y)%Q → (- y <= x)%Q ∧ (x <= y)%Q) →
  ((y <= 0)%Q → (y <= x)%Q ∧ (x <= - y)%Q) →
  (Qabs x <= Qabs y)%Q.
Proof.
  intros Hpos Hneg. apply Qabs_Qle_condition.
  destruct (Qlt_le_dec y 0) as [Hy|Hy].
  - rewrite (Qabs_neg y) by Lqa.lra. destruct Hneg; [Lqa.lra|]. split; Lqa.lra.
  - rewrite (Qabs_pos y) by done. destruct Hpos; [done|]. split; Lqa.lra.
Qed.

Lemma rne_floor (r : Q) : rne r = Qfloor r ∨ rne r = (Qfloor r + 1)%Z.
Proof. unfold rne. destruct (_ ?= _)%Q; [destruct (Z.even _)|..]; auto. Qed.

Lemma rne_nearest (r : Q) (j : Z) :
  (Qabs (inject_Z (rne r) - r) <= Qabs (inject_Z j - r))%Q.
Proof.
  pose proof (Qfloor_le r) as Hf1. pose proof (Qlt_floor r) as Hf2.
  rewrite inject_Z_plus in Hf2. change (inject_Z 1) with 1%Q in Hf2.
  assert (Hj : (inject_Z j <= inject_Z (Qfloor r))%Q
               ∨ (inject_Z (Qfloor r) + 1 <= inject_Z j)%Q).
  { destruct (Z_le_gt_dec j (Qfloor r)) as [Hle|Hgt].
    - left. by apply inject_Z_le.
    - right. change 1%Q with (inject_Z 1). rewrite <- inject_Z_plus.
      apply inject_Z_le. lia. }
  unfold rne. set (f := Qfloor r) in *.
  destruct (r - inject_Z f ?= 1 # 2)%Q eqn:Hc.
  - apply Qeq_alt in Hc.
    assert (Hd : (Qabs (inject_Z j - r) >= 1 # 2)%Q).
    { destruct Hj; [rewrite <- Qabs_opp|]; apply Qabs_ge; Lqa.lra. }
    destruct (Z.even f).
    + apply Qle_trans with (1 # 2)%Q; [|done].
      apply Qabs_Qle_condition. split; Lqa.lra.
    + rewrite inject_Z_plus. change (inject_Z 1) with 1%Q.
      apply Qle_trans with (1 # 2)%Q; [|done].
      apply Qabs_Qle_condition. split; Lqa.lra.
  - apply Qlt_alt in Hc.
    apply Qabs_le_intro; intros Hs; destruct Hj; split; Lqa.lra.
  - apply Qgt_alt in Hc. rewrite inject_Z_plus. change (inject_Z 1) with 1%Q.
    apply Qabs_le_intro; intros Hs; destruct Hj; split; Lqa.lra.
Qed.

Lemma rne_ge (r : Q) (j : Z) : (inject_Z j <= r)%Q → (j <= rne r)%Z.
Proof.
  intros Hj. apply Qfloor_resp_le in Hj. rewrite Qfloor_Z in Hj.
  destruct (rne_floor r) as [-> | ->]; lia.
Qed.

Lemma rne_le (r : Q) (j : Z) : (r <= inject_Z j)%Q → (rne r <= j)%Z.
Proof.
  intros Hj.
  pose proof (Qfloor_le r) as Hf1.
  assert (Hfj : (Qfloor r <= j)%Z).
  { apply Qfloor_resp_le in Hj. by rewrite Qfloor_Z in Hj. }
  unfold rne. set (f := Qfloor r) in *.
  assert (Hstep : (0 < r - inject_Z f)%Q → (f + 1 <= j)%Z).
  { intros Hd. destruct (Z_le_gt_dec (f + 1) j) as [|Hgt]; [done|].
    assert (j = f) as -> by lia. Lqa.lra. }
  destruct (r - inject_Z f ?= 1 # 2)%Q eqn:Hc.
  - apply Qeq_alt in Hc. destruct (Z.even f); [done|]. apply Hstep. Lqa.lra.
  - done.
  - apply Qgt_alt in Hc. apply Hstep. Lqa.lra.
Qed.

Ltac qabs_split H x :=
  destruct (Qlt_le_dec x 0);
  [rewrite (Qabs_neg x) in H by Lqa.lra | rewrite (Qabs_pos x) in H by Lqa.lra].

Lemma round_pos_scaled (q : Q) :
  (0 < q)%Q →
  let e := (mag q - 53)%Z in
  (inject_Z (2 ^ 52) * pow2 e <= q)%Q ∧ (q < inject_Z (2 ^ 53) * pow2 e)%Q.
Proof.
  intros Hq e. destruct (mag_spec q Hq) as [Hlo Hhi].
  pose proof (pow2_add 52 e) as H52. pose proof (pow2_add 53 e) as H53.
  replace (52 + e)%Z with (mag q - 1)%Z in H52 by (unfold e; lia).
  replace (53 + e)%Z with (mag q) in H53 by (unfold e; lia).
  rewrite (pow2_Z 52) in H52 by lia. rewrite (pow2_Z 53) in H53 by lia.
  split; Lqa.lra.
Qed.

Lemma round_pos_mantissa (q : Q) :
  (0 < q)%Q →
  (2 ^ 52 <= rne (q / pow2 (mag q - 53)) <= 2 ^ 53)%Z.
Proof.
  intros Hq. destruct (round_pos_scaled q Hq) as [Hlo Hhi].
  pose proof (pow2_pos (mag q - 53)) as HE.
  split.
  - apply rne_ge. apply Qle_shift_div_l; done.
  - apply rne_le. apply Qle_shift_div_r; [done|]. by apply Qlt_le_weak.
Qed.

Lemma round_pos_representable (q : Q) : (0 < q)%Q → representable (round_pos q).
Proof.
  intros Hq. exists (rne (q / pow2 (mag q - 53))), (mag q - 53)%Z.
  split; [|reflexivity].
  pose proof (round_pos_mantissa q Hq). lia.
Qed.

(** Among the multiples of the unit in the last place, the rounded value
    is a nearest one. *)
Lemma round_pos_nearest_multiple (q : Q) (j : Z) :
  (0 < q)%Q →
  (Qabs (round_pos q - q)
   <= Qabs (inject_Z j * pow2 (mag q - 53) - q))%Q.
Proof.
  intros Hq. unfold round_pos.
  set (E := pow2 (mag q - 53)). pose proof (pow2_pos (mag q - 53)) as HE.
  fold E in HE.
  assert (Hq' : (q == q / E * E)%Q) by (field; Lqa.lra).
  set (r := (q / E)%Q) in *.
  pose proof (rne_nearest r j) as Hn.
  assert (H1 : (inject_Z (rne r) * E - q == (inject_Z (rne r) - r) * E)%Q)
    by (rewrite Hq' at 1; ring).
  assert (H2 : (inject_Z j * E - q == (inject_Z j - r) * E)%Q)
    by (rewrite Hq' at 1; ring).
  rewrite H1, H2, !Qabs_Qmult, (Qabs_pos E) by Lqa.lra.
  apply Qmult_le_compat_r; [done|Lqa.lra].
Qed.

Lemma representable_pos (f : Q) :
  representable f → (0 < f)%Q →
  ∃ k e : Z, (0 < k <= 2 ^ 53)%Z ∧ (f == inject_Z k * pow2 e)%Q.
Proof.
  intros (k & e & Hk & Hf) Hpos. exists k, e. split; [|done].
  pose proof (pow2_pos e) as HE. rewrite Hf in Hpos.
  assert (0 < inject_Z k)%Q.
  { destruct (Qlt_le_dec 0 (inject_Z k)); [done|]. exfalso. Lqa.nra. }
  change 0%Q with (inject_Z 0) in H. rewrite <- Zlt_Qlt in H. lia.
Qed.

(** A float64 number at or above the lower end of a binade is a multiple
    of the unit in the last place of that binade. *)
Lemma representable_in_binade (f : Q) (e : Z) :
  representable f →
  (inject_Z (2 ^ 52) * pow2 e <= f)%Q →
  ∃ j : Z, (f == inject_Z j * pow2 e)%Q.
Proof.
  intros Hrep Hlo. pose proof (pow2_pos e) as HE.
  assert (Hpos : (0 < f)%Q).
  { assert (0 < inject_Z (2 ^ 52))%Q by reflexivity. Lqa.nra. }
  destruct (representable_pos f Hrep Hpos) as (k & e' & Hk & Hf).
  destruct (Z_le_gt_dec e e') as [Hge|Hlt].
  - exists (k * 2 ^ (e' - e))%Z.
    rewrite Hf, inject_Z_mult, <- (pow2_Z (e' - e)) by lia.
    replace e' with ((e' - e) + e)%Z at 1 by lia.
    rewrite pow2_add. ring.
  - exists (2 ^ 52)%Z.
    assert (Hle : (f <= inject_Z (2 ^ 52) * pow2 e)%Q).
    { rewrite Hf.
      pose proof (pow2_le e' (e - 1) ltac:(lia)) as Hp.
      pose proof (pow2_succ (e - 1)) as Hs.
      replace (e - 1 + 1)%Z with e in Hs by lia.
      pose proof (pow2_pos e'). pose proof (pow2_pos (e - 1)).
      assert (Hk' : (inject_Z k <= inject_Z (2 ^ 53))%Q)
        by (apply inject_Z_le; lia).
      assert (Hk0 : (0 < inject_Z k)%Q)
        by (change 0%Q with (inject_Z 0); apply inject_Z_lt; lia).
      change (inject_Z (2 ^ 53)) with (2 * inject_Z (2 ^ 52))%Q in Hk'.
      assert (0 < inject_Z (2 ^ 52))%Q by reflexivity.
      apply Qle_trans with (inject_Z k * pow2 (e - 1))%Q; [Lqa.nra|].
      rewrite Hs. Lqa.nra. }
    Lqa.lra.
Qed.

Lemma round_pos_nearest (q f' : Q) :
  (0 < q)%Q → representable f' →
  (Qabs (round_pos q - q) <= Qabs (f' - q))%Q.
Proof.
  intros Hq Hrep.
  destruct (round_pos_scaled q Hq) as [Hlo Hhi].
  set (e := (mag q - 53)%Z) in *.
  pose proof (round_pos_nearest_multiple q (2 ^ 52) Hq) as Hn52.
  pose proof (round_pos_nearest_multiple q (2 ^ 53) Hq) as Hn53.
  fold e in Hn52, Hn53.
  destruct (Qlt_le_dec f' (inject_Z (2 ^ 52) * pow2 e)) as [Hbelow|Hge].
  - eapply Qle_trans; [exact Hn52|].
    apply Qabs_le_intro; intros Hs; split; Lqa.lra.
  - destruct (Qlt_le_dec (inject_Z (2 ^ 53) * pow2 e) f') as [Habove|Hle].
    + eapply Qle_trans; [exact Hn53|].
      apply Qabs_le_intro; intros Hs; split; Lqa.lra.
    + destruct (representable_in_binade f' e Hrep Hge) as [j Hj].
      rewrite Hj. by apply round_pos_nearest_multiple.
Qed.

Lemma representable_opp (f : Q) : representable f → representable (- f).
Proof.
  intros (k & e & Hk & Hf). exists (- k)%Z, e. split; [lia|].
  rewrite Hf, inject_Z_opp. ring.
Qed.

Lemma representable_0 : representable 0.
Proof. exists 0%Z, 0%Z. split; [done|reflexivity]. Qed.

Lemma representable_Qeq (f g : Q) : (f == g)%Q → representable f → representable g.
Proof. intros Heq (k & e & Hk & Hf). exists k, e. split; [done|]. by rewrite <- Heq. Qed.

Lemma b64_round_cases (q : Q) :
  ((q == 0)%Q ∧ b64_round q = 0%Q)
  ∨ ((0 < q)%Q ∧ (b64_round q == round_pos (Qred q))%Q)
  ∨ ((q < 0)%Q ∧ (b64_round q == - round_pos (- Qred q))%Q).
Proof.
  unfold b64_round. pose proof (Qred_correct q) as Hr.
  destruct (0 ?= Qred q)%Q eqn:Hc.
  - left. apply Qeq_alt in Hc. split; [Lqa.lra|done].
  - right. left. apply Qlt_alt in Hc. split; [Lqa.lra|apply Qred_correct].
  - right. right. apply Qgt_alt in Hc. split; [Lqa.lra|apply Qred_correct].
Qed.

Lemma b64_round_nearest (q : Q) : nearest q (b64_round q).
Proof.
  pose proof (Qred_correct q) as Hr.
  destruct (b64_round_cases q) as [[H0 ->]|[[Hpos Hb]|[Hneg Hb]]].
  - split; [apply representable_0|]. intros f' _.
    assert (E : (0 - q == 0)%Q) by Lqa.lra. rewrite E. apply Qabs_nonneg.
  - assert (Hq : (0 < Qred q)%Q) by Lqa.lra. split.
    + apply (representable_Qeq (round_pos (Qred q))); [by symmetry|].
      by apply round_pos_representable.
    + intros f' Hf'.
      assert (E1 : (b64_round q - q == round_pos (Qred q) - Qred q)%Q)
        by Lqa.lra.
      assert (E2 : (f' - q == f' - Qred q)%Q) by Lqa.lra.
      rewrite E1, E2. by apply round_pos_nearest.
  - assert (Hq : (0 < - Qred q)%Q) by Lqa.lra. split.
    + apply (representable_Qeq (- round_pos (- Qred q))); [by symmetry|].
      apply representable_opp. by apply round_pos_representable.
    + intros f' Hf'.
      pose proof (round_pos_nearest (- Qred q) (- f') Hq
                    (representable_opp _ Hf')) as Hn.
      assert (E1 : (b64_round q - q == - (round_pos (- Qred q) - - Qred q))%Q)
        by Lqa.lra.
      assert (E2 : (f' - q == - (- f' - - Qred q))%Q) by Lqa.lra.
      rewrite E1, E2. by rewrite !Qabs_opp.
Qed.

Lemma b64_round_Qeq (p q : Q) : (p == q)%Q → b64_round p = b64_round q.
Proof. intros Heq. unfold b64_round. by rewrite (Qred_complete p q Heq). Qed.

Lemma b64_round_canonical (q : Q) : Qred (b64_round q) = b64_round q.
Proof.
  unfold b64_round.
  destruct (0 ?= Qred q)%Q; [done|apply Qred_complete, Qred_correct..].
Qed.

Lemma b64_round_eq (q c : Q) : (b64_round q == c)%Q → b64_round q = Qred c.
Proof.
  intros Heq. rewrite <- b64_round_canonical. by apply Qred_complete.
Qed.

Lemma b64_round_exact (f : Q) : representable f → (b64_round f == f)%Q.
Proof.
  intros Hf. destruct (b64_round_nearest f) as [_ Hn].
  specialize (Hn f Hf).
  assert (E : (f - f == 0)%Q) by ring. rewrite E in Hn.
  change (Qabs 0) with 0%Q in Hn.
  qabs_split Hn (b64_round f - f)%Q; Lqa.lra.
Qed.

Lemma b64_round_mono (p q : Q) : (p <= q)%Q → (b64_round p <= b64_round q)%Q.
Proof.
  intros Hpq.
  destruct (Qlt_le_dec (b64_round q) (b64_round p)) as [Hlt|]; [|done].
  exfalso.
  destruct (b64_round_nearest p) as [Hrp Hnp].
  destruct (b64_round_nearest q) as [Hrq Hnq].
  specialize (Hnp _ Hrq). specialize (Hnq _ Hrp).
  assert (Heq : (p == q)%Q).
  { qabs_split Hnp (b64_round p - p)%Q; qabs_split Hnp (b64_round q - p)%Q;
      qabs_split Hnq (b64_round q - q)%Q; qabs_split Hnq (b64_round p - q)%Q;
      Lqa.lra. }
  rewrite (b64_round_Qeq p q Heq) in Hlt. Lqa.lra.
Qed.

Lemma representable_Z (z : Z) : (Z.abs z <= 2 ^ 53)%Z → representable (inject_Z z).
Proof. intros Hz. exists z, 0%Z. split; [done|]. rewrite pow2_0. ring. Qed.

Lemma b64_round_Z (z : Z) :
  (Z.abs z <= 2 ^ 53)%Z → (b64_round (inject_Z z) == inject_Z z)%Q.
Proof. intros Hz. by apply b64_round_exact, representable_Z. Qed.

Lemma pow2_53_inv : (inject_Z (2 ^ 53) * pow2 (-53) == 1)%Q.
Proof. reflexivity. Qed.

Lemma representable_grid (k : Z) :
  (Z.abs k <= 2 ^ 53)%Z → representable (inject_Z k * pow2 (-53)).
Proof. intros Hk. exists k, (-53)%Z. split; [done|reflexivity]. Qed.

(** Two numbers of [0, 1] more than 2^-53 apart round to different
    values. *)
Lemma b64_round_separates (q1 q2 : Q) :
  (0 <= q1)%Q → (q2 <= 1)%Q → (q1 + pow2 (-53) < q2)%Q →
  (b64_round q1 < b64_round q2)%Q.
Proof.
  intros H0 H1 Hgap.
  pose proof pow2_53_inv as HPU. pose proof (pow2_pos (-53)) as HU.
  assert (HP : (0 < inject_Z (2 ^ 53))%Q) by reflexivity.
  pose proof (Qle_ceiling (q1 * inject_Z (2 ^ 53))) as Hk1.
  pose proof (Qceiling_lt (q1 * inject_Z (2 ^ 53))) as Hk2.
  assert (Hk0 : (0 <= Qceiling (q1 * inject_Z (2 ^ 53)))%Z).
  { assert (H : (0 <= q1 * inject_Z (2 ^ 53))%Q) by (apply Qmult_le_0_compat; Lqa.lra).
    apply Qceiling_resp_le in H. exact H. }
  remember (Qceiling (q1 * inject_Z (2 ^ 53))) as k eqn:Hkdef. clear Hkdef.
  assert (Hrep : ∀ j : Z, (Z.abs j <= 2 ^ 53)%Z →
            representable (inject_Z j * pow2 (-53)))
    by apply representable_grid.
  assert (Hinj : ∀ j : Z, (inject_Z j < inject_Z (2 ^ 53))%Q → (j < 2 ^ 53)%Z)
    by (intros j Hj; by rewrite Zlt_Qlt).
  unfold Z.sub in Hk2. rewrite inject_Z_plus in Hk2.
  remember (pow2 (-53)) as U eqn:HUdef. clear HUdef.
  remember (inject_Z (2 ^ 53)) as P eqn:HPdef. clear HPdef.
  assert (Hk3 : (inject_Z k + -1 < q1 * P)%Q) by exact Hk2. clear Hk2.
  remember (inject_Z k * U)%Q as g eqn:Hg.
  assert (Hg' : (g == inject_Z k * U)%Q) by (by rewrite Hg).
  assert (E : (q1 * P * U == q1)%Q) by (rewrite <- Qmult_assoc, HPU; ring).
  assert (Hg1 : (q1 <= g)%Q).
  { rewrite Hg, <- E. apply Qmult_le_compat_r; Lqa.lra. }
  assert (Hg2 : (g < q1 + U)%Q).
  { assert ((inject_Z k + -1) * U < q1 * P * U)%Q
      by (apply Qmult_lt_compat_r; Lqa.lra). rewrite Hg. Lqa.lra. }
  assert (HkP : (k < 2 ^ 53)%Z).
  { apply Hinj. destruct (Qlt_le_dec (inject_Z k) P) as [|Hge]; [done|].
    exfalso. assert (P * U <= inject_Z k * U)%Q
      by (apply Qmult_le_compat_r; Lqa.lra). Lqa.lra. }
  assert (Hrg : representable g) by (rewrite Hg; apply Hrep; lia).
  assert (Hrg' : representable (g + U)).
  { apply (representable_Qeq (inject_Z (k + 1) * U)).
    - rewrite inject_Z_plus, Hg. change (inject_Z 1) with 1%Q. ring.
    - apply Hrep. lia. }
  assert (Hrg'' : representable (g - U)).
  { apply (representable_Qeq (inject_Z (k + -1) * U)).
    - rewrite inject_Z_plus, Hg. change (inject_Z (-1)) with (-1)%Q. ring.
    - apply Hrep. lia. }
  clear Hrep Hinj Hg.
  pose proof (b64_round_mono q1 g Hg1) as Hm1.
  pose proof (b64_round_mono g q2 ltac:(Lqa.lra)) as Hm2.
  rewrite (b64_round_exact g Hrg) in Hm1, Hm2.
  destruct (Qlt_le_dec (b64_round q1) (b64_round q2)) as [|Hle]; [done|].
  exfalso.
  destruct (b64_round_nearest q1) as [_ Hn1].
  destruct (b64_round_nearest q2) as [_ Hn2].
  specialize (Hn1 _ Hrg''). specialize (Hn2 _ Hrg').
  assert (E1 : (b64_round q1 == g)%Q) by Lqa.lra.
  assert (E2 : (b64_round q2 == g)%Q) by Lqa.lra.
  rewrite E1 in Hn1. rewrite E2 in Hn2.
  qabs_split Hn1 (g - q1)%Q; qabs_split Hn1 (g - U - q1)%Q;
    qabs_split Hn2 (g - q2)%Q; qabs_split Hn2 (g + U - q2)%Q; Lqa.lra.
Qed.

(** The quotients of two different counts by the same divisor, all between
    0 and 2^53, round to different values. *)
Lemma b64_round_quotient_lt (x y m : Z) :
  (0 <= x < y)%Z → (y <= m <= 2 ^ 53)%Z →
  (b64_round (inject_Z x / inject_Z m) < b64_round (inject_Z y / inject_Z m))%Q.
Proof.
  intros [Hx Hxy] [Hym Hm].
  assert (HM : (0 < inject_Z m)%Q)
    by (change 0%Q with (inject_Z 0); apply inject_Z_lt; lia).
  assert (HX : (0 <= inject_Z x)%Q)
    by (change 0%Q with (inject_Z 0); by apply inject_Z_le).
  assert (HXY : (inject_Z x + 1 <= inject_Z y)%Q).
  { change 1%Q with (inject_Z 1). rewrite <- inject_Z_plus.
    apply inject_Z_le. lia. }
  assert (HYM : (inject_Z y <= inject_Z m)%Q) by (by apply inject_Z_le).
  assert (Hq1 : (inject_Z x / inject_Z m * inject_Z m == inject_Z x)%Q)
    by (field; Lqa.lra).
  assert (Hq2 : (inject_Z y / inject_Z m * inject_Z m == inject_Z y)%Q)
    by (field; Lqa.lra).
  pose proof pow2_53_inv as HPU. pose proof (pow2_pos (-53)) as HU.
  destruct (Z.eq_dec m (2 ^ 53)%Z) as [->|Hne].
  - (* both quotients are on the grid *)
    assert (E1 : (inject_Z x / inject_Z (2 ^ 53) == inject_Z x * pow2 (-53))%Q)
      by reflexivity.
    assert (E2 : (inject_Z y / inject_Z (2 ^ 53) == inject_Z y * pow2 (-53))%Q)
      by reflexivity.
    rewrite (b64_round_Qeq _ _ E1), (b64_round_Qeq _ _ E2).
    rewrite !b64_round_exact by (apply representable_grid; lia).
    apply Qmult_lt_compat_r; [done|]. apply inject_Z_lt. lia.
  - assert (HmP : (inject_Z m + 1 <= inject_Z (2 ^ 53))%Q).
    { change 1%Q with (inject_Z 1). rewrite <- inject_Z_plus.
      apply inject_Z_le. lia. }
    remember (inject_Z x / inject_Z m)%Q as q1 eqn:E1. clear E1.
    remember (inject_Z y / inject_Z m)%Q as q2 eqn:E2. clear E2.
    remember (inject_Z (2 ^ 53)) as P eqn:EP. clear EP.
    remember (pow2 (-53)) as U eqn:EU.
    remember (inject_Z m) as M eqn:EM. clear EM.
    remember (inject_Z x) as X eqn:EX. clear EX.
    remember (inject_Z y) as Y eqn:EY. clear EY.
    assert (HUM : (U * M < 1)%Q).
    { assert (U * M < U * P)%Q by (apply Qmult_lt_l; Lqa.lra). Lqa.lra. }
    assert (Hgap : (q1 + U < q2)%Q).
    { destruct (Qlt_le_dec (q1 + U) q2) as [|Hle]; [done|]. exfalso.
      assert ((q2 - q1) * M <= U * M)%Q
        by (apply Qmult_le_compat_r; Lqa.lra).
      Lqa.lra. }
    rewrite EU in Hgap. apply b64_round_separates; [| |done].
    + destruct (Qlt_le_dec q1 0) as [Hn|]; [exfalso|done].
      assert (q1 * M < 0 * M)%Q by (apply Qmult_lt_compat_r; Lqa.lra).
      Lqa.lra.
    + destruct (Qlt_le_dec 1 q2) as [Hn|]; [exfalso|done].
      assert (1 * M < q2 * M)%Q by (apply Qmult_lt_compat_r; Lqa.lra).
      Lqa.lra.
Qed.

(** ** Reshaping and the sums over frequency *)

Lemma foldl_Zadd_foldr (l : list Z) (a : Z) :
  foldl Z.add a l = (a + foldr Z.add 0 l)%Z.
Proof.
  revert a. induction l as [|x l IH]; intros a; simpl; [lia|].
  rewrite IH. lia.
Qed.

Lemma foldl_map_acc {X : Type} (f : X -> Z) (l : list X) (a : Z) :
  foldl (fun acc j => (acc + f j)%Z) a l = foldl Z.add a (map f l).
Proof. revert a. induction l as [|x l IH]; intros a; simpl; [done|apply IH]. Qed.

(** Reading [c] entries from offset [off] is a slice of the buffer. *)
Lemma map_nth_slice (v : list Z) (off c : nat) :
  off + c ≤ length v →
  map (fun j => nth (off + j) v 0%Z) (seq 0 c) = take c (drop off v).
Proof.
  intros Hlen. apply list_eq. intros k.
  rewrite list_lookup_fmap.
  destruct (decide (k < c)) as [Hk|Hk].
  - rewrite lookup_seq_lt by done. simpl.
    rewrite lookup_take_lt by done. rewrite lookup_drop.
    rewrite nth_lookup.
    destruct (lookup_lt_is_Some_2 v (off + k)) as [x ->]; [lia|done].
  - rewrite lookup_seq_ge by lia. simpl.
    symmetry. apply lookup_ge_None. rewrite length_take. lia.
Qed.

Lemma spec_reshape_slices (rows cols : nat) (v : list Z) :
  spec_reshape rows cols v
  = map (fun i => take cols (drop (i * cols) v)) (seq 0 rows).
Proof.
  revert v. induction rows as [|r IH]; intros v; [done|].
  simpl. f_equal. rewrite IH. rewrite <- seq_shift, map_map.
  apply map_ext. intros i. rewrite drop_drop. simpl. done.
Qed.

Lemma spec_reshape_length (rows cols : nat) (v : list Z) :
  length (spec_reshape rows cols v) = rows.
Proof. rewrite spec_reshape_slices, length_map, length_seq. done. Qed.

(** ** 64-bit sums *)

Lemma wrap64_range (z : Z) : (- 2 ^ 63 <= wrap64 z < 2 ^ 63)%Z.
Proof. unfold wrap64. Z.div_mod_to_equations. lia. Qed.

Lemma wrap64_small (z : Z) : (- 2 ^ 63 <= z < 2 ^ 63)%Z → wrap64 z = z.
Proof. intros Hz. unfold wrap64. Z.div_mod_to_equations. lia. Qed.

Lemma wrap64_add_l (a b : Z) : wrap64 (wrap64 a + b) = wrap64 (a + b).
Proof.
  unfold wrap64.
  replace ((a + 2 ^ 63) mod 2 ^ 64 - 2 ^ 63 + b + 2 ^ 63)%Z
    with ((a + 2 ^ 63) mod 2 ^ 64 + b)%Z by lia.
  rewrite Z.add_mod_idemp_l by lia. f_equal. f_equal. lia.
Qed.

(** Adding up with a wrap at every step leaves the wrapped sum. *)
Lemma foldl_wrap64 {X : Type} (f : X -> Z) (l : list X) (a : Z) :
  foldl (fun acc j => wrap64 (acc + f j)) (wrap64 a) l
  = wrap64 (a + foldr Z.add 0%Z (map f l)).
Proof.
  revert a. induction l as [|x l IH]; intros a; simpl.
  - f_equal. lia.
  - rewrite wrap64_add_l, IH. f_equal. lia.
Qed.

(** The strided sums of the reshaped array are the row totals, as 64-bit
    integers. *)
Lemma sum_axis1_reshaped (n cfN : nat) (v : list Z) :
  length v = n * cfN →
  sum_axis1 (mk_ndarray v [n; cfN]) = Some (spec_totals n cfN v).
Proof.
  intros Hlen. unfold sum_axis1, spec_totals, spec_sum_over_frequency.
  simpl. f_equal.
  rewrite spec_reshape_slices, !map_map.
  apply map_ext_in. intros i Hi. apply in_seq in Hi.
  unfold get2. simpl.
  pose proof (foldl_wrap64 (fun j => nth (i * cfN + j) v 0%Z) (seq 0 cfN) 0)
    as Hfold.
  rewrite (wrap64_small 0) in Hfold by lia. cbn beta in Hfold.
  rewrite Hfold, map_nth_slice; [done|]. rewrite Hlen. nia.
Qed.

Lemma spec_totals_length (n cfN : nat) (v : list Z) :
  length (spec_totals n cfN v) = n.
Proof.
  unfold spec_totals, spec_sum_over_frequency.
  by rewrite !length_map, spec_reshape_length.
Qed.

(** ** The maximum *)

Lemma foldl_Zmax_foldr (l : list Z) (a : Z) :
  foldl Z.max a l = foldr Z.max a l.
Proof.
  revert a. induction l as [|x l IH]; intros a; simpl; [done|].
  rewrite IH. clear IH. induction l as [|y l IH]; simpl; lia.
Qed.

Lemma foldr_Zmax_ge (l : list Z) (a x : Z) :
  x ∈ l → (x <= foldr Z.max a l)%Z.
Proof.
  induction l as [|y l IH]; intros Hx; [by apply elem_of_nil in Hx|].
  apply elem_of_cons in Hx as [->|Hx]; simpl; [lia|].
  specialize (IH Hx). lia.
Qed.

Lemma foldr_Zmax_init (l : list Z) (a : Z) : (a <= foldr Z.max a l)%Z.
Proof. induction l as [|y l IH]; simpl; lia. Qed.

Lemma foldr_Zmax_in (l : list Z) (a : Z) :
  foldr Z.max a l = a ∨ foldr Z.max a l ∈ l.
Proof.
  induction l as [|y l IH]; simpl; [by left|].
  destruct (Z.max_spec y (foldr Z.max a l)) as [[_ ->]|[_ ->]].
  - destruct IH as [->|IH]; [by left|right; by apply list_elem_of_further].
  - right. apply list_elem_of_here.
Qed.

Lemma amax_spec_max (l : list Z) (m : Z) :
  amax l = Some m → m = foldr Z.max (hd 0%Z l) l.
Proof.
  destruct l as [|x l]; [done|]. simpl. intros [= <-].
  rewrite foldl_Zmax_foldr.
  pose proof (foldr_Zmax_init l x). lia.
Qed.

Lemma amax_ge (l : list Z) (m x : Z) :
  amax l = Some m → x ∈ l → (x <= m)%Z.
Proof.
  destruct l as [|y l]; [done|]. simpl. intros [= <-] Hx.
  rewrite foldl_Zmax_foldr.
  apply elem_of_cons in Hx as [->|Hx].
  - apply foldr_Zmax_init.
  - by apply foldr_Zmax_ge.
Qed.

Lemma amax_in (l : list Z) (m : Z) :
  amax l = Some m → m ∈ l.
Proof.
  destruct l as [|y l]; [done|]. simpl. intros [= <-].
  rewrite foldl_Zmax_foldr.
  destruct (foldr_Zmax_in l y) as [->|Hin].
  - apply list_elem_of_here.
  - by apply list_elem_of_further.
Qed.

Lemma amax_is_Some (l : list Z) : l ≠ [] → is_Some (amax l).
Proof. destruct l; [done|]. intros _. by eexists. Qed.

(** ** The order of scores *)

Lemma score_le_not_nan (a b : score) :
  score_le a b = true → is_nan a = false ∧ is_nan b = false.
Proof. destruct a, b; simpl; intros H; try discriminate; done. Qed.

Lemma score_le_total (a b : score) :
  is_nan a = false → is_nan b = false →
  score_le a b = false → score_le b a = true.
Proof.
  destruct a as [p| | |], b as [q| | |]; simpl; try done.
  intros _ _ H. apply Qle_bool_iff.
  destruct (Qlt_le_dec q p) as [Hlt|Hle].
  - by apply Qlt_le_weak.
  - apply Qle_bool_iff in Hle. congruence.
Qed.

Lemma score_le_trans (a b c : score) :
  score_le a b = true → score_le b c = true → score_le a c = true.
Proof.
  destruct a as [p| | |], b as [q| | |], c as [r| | |]; simpl; try done.
  rewrite !Qle_bool_iff. apply Qle_trans.
Qed.

(** A new running maximum dominates what the old one dominated. *)
Lemma score_le_new_max (t mp x : score) :
  is_nan x = false → score_le t mp = true → score_le x mp = false →
  score_le t x = true ∧ score_le x t = false.
Proof.
  intros Hx Ht Hxm.
  destruct (score_le_not_nan _ _ Ht) as [Hnt Hnm].
  pose proof (score_le_total _ _ Hx Hnm Hxm) as Hmx.
  split; [by eapply score_le_trans|].
  destruct (score_le x t) eqn:Hxt; [|done].
  rewrite (score_le_trans _ _ _ Hxt Ht) in Hxm. done.
Qed.

(** ** numpy's argmax returns the first index whose entry no entry exceeds *)

Lemma argmax_loop_is_argmax (ip pre : list score) (mp : score) (max_ind : nat) :
  pre !! max_ind = Some mp →
  (∀ k t, pre !! k = Some t → score_le t mp = true) →
  (∀ k t, k < max_ind → pre !! k = Some t → score_le mp t = false) →
  is_argmax (pre ++ ip)
    (argmax_loop (fun x mp => negb (score_le x mp)) is_nan mp max_ind (length pre) ip).
Proof.
  revert pre mp max_ind.
  induction ip as [|x rest IH]; intros pre mp max_ind Hmp Hall Hbefore; simpl.
  - rewrite app_nil_r. exists mp. split; [done|].
    destruct (score_le_not_nan _ _ (Hall _ _ Hmp)) as [Hn _].
    unfold not_above. split.
    + intros k t Hk. rewrite Hn. simpl. eauto.
    + intros k t Hlt Hk.
      destruct (score_le_not_nan _ _ (Hall _ _ Hk)) as [-> _]. simpl. eauto.
  - destruct (score_le x mp) eqn:Hx; simpl.
    + (* the maximum stays *)
      replace (pre ++ x :: rest) with ((pre ++ [x]) ++ rest)
        by (by rewrite <- app_assoc).
      replace (S (length pre)) with (length (pre ++ [x]))
        by (rewrite length_app; simpl; lia).
      apply IH.
      * rewrite lookup_app_l; [done|]. by eapply lookup_lt_Some.
      * intros k t Hk. apply lookup_app_Some in Hk as [Hk|[_ Hk]]; [eauto|].
        apply list_lookup_singleton_Some in Hk as [_ <-]. done.
      * intros k t Hlt Hk. apply lookup_app_Some in Hk as [Hk|[Hge _]]; [eauto|].
        apply lookup_lt_Some in Hmp. lia.
    + destruct (is_nan x) eqn:Hnan.
      * (* a nan ends the scan *)
        destruct x; try discriminate.
        exists NaN. split; [|split].
        -- rewrite lookup_app_r by lia. by rewrite Nat.sub_diag.
        -- intros k t _. done.
        -- intros k t Hlt Hk. rewrite lookup_app_l in Hk by done.
           destruct (score_le_not_nan _ _ (Hall _ _ Hk)) as [Hn _].
           unfold not_above. rewrite Hn. done.
      * (* a new maximum *)
        replace (pre ++ x :: rest) with ((pre ++ [x]) ++ rest)
          by (by rewrite <- app_assoc).
        replace (S (length pre)) with (length (pre ++ [x]))
          by (rewrite length_app; simpl; lia).
        assert (Hxx : score_le x x = true).
        { destruct (score_le x x) eqn:E; [done|].
          by rewrite (score_le_total _ _ Hnan Hnan E) in E. }
        apply IH.
        -- rewrite lookup_app_r by lia. by rewrite Nat.sub_diag.
        -- intros k t Hk. apply lookup_app_Some in Hk as [Hk|[_ Hk]].
           ++ by apply (score_le_new_max t mp x Hnan (Hall _ _ Hk) Hx).
           ++ apply list_lookup_singleton_Some in Hk as [_ <-]. done.
        -- intros k t Hlt Hk. rewrite lookup_app_l in Hk by done.
           by apply (score_le_new_max t mp x Hnan (Hall _ _ Hk) Hx).
Qed.

Lemma argmax_is_argmax (l : list score) (g : nat) :
  argmax l = Some g → is_argmax l g.
Proof.
  destruct l as [|x rest]; [done|].
  unfold argmax. simpl. intros [= <-].
  destruct (is_nan x) eqn:Hnan.
  - destruct x; try discriminate. exists NaN.
    split; [done|]. split; [done|]. intros k t Hlt. lia.
  - assert (Hxx : score_le x x = true).
    { destruct (score_le x x) eqn:E; [done|].
      by rewrite (score_le_total _ _ Hnan Hnan E) in E. }
    apply (argmax_loop_is_argmax rest [x] x 0); [done| |intros; lia].
    intros k t Hk. apply list_lookup_singleton_Some in Hk as [_ <-]. done.
Qed.

Lemma is_argmax_unique (l : list score) (g g' : nat) :
  is_argmax l g → is_argmax l g' → g = g'.
Proof.
  intros (s & Hs & Hmax & Hfirst) (s' & Hs' & Hmax' & Hfirst').
  destruct (Nat.lt_trichotomy g g') as [Hlt|[->|Hlt]]; [|done|].
  - pose proof (Hfirst' _ _ Hlt Hs). pose proof (Hmax _ _ Hs'). congruence.
  - pose proof (Hfirst _ _ Hlt Hs'). pose proof (Hmax' _ _ Hs). congruence.
Qed.

Lemma is_argmax_lt (l : list score) (g : nat) : is_argmax l g → g < length l.
Proof. intros (s & Hs & _). by eapply lookup_lt_Some. Qed.

Lemma argmax_is_Some (l : list score) : l ≠ [] → is_Some (argmax l).
Proof. destruct l; [done|]. intros _. by eexists. Qed.

(** ** The float64 division of two counts *)

Lemma inject_Z_pos (m : Z) : (0 < m)%Z → (0 < inject_Z m)%Q.
Proof. intros Hm. change 0%Q with (inject_Z 0). by rewrite <- Zlt_Qlt. Qed.

Lemma b64_round_0 : b64_round 0 = 0%Q.
Proof. reflexivity. Qed.

Lemma b64_round_1 : b64_round 1 = 1%Q.
Proof. reflexivity. Qed.

Lemma fdiv_pos (x m : Z) :
  (0 < m)%Z →
  fdiv x m = Fin (b64_round (b64_round (inject_Z x) / b64_round (inject_Z m))).
Proof.
  intros Hm. unfold fdiv. destruct (m =? 0)%Z eqn:E; [|done].
  apply Z.eqb_eq in E. lia.
Qed.

Lemma fdiv_not_nan (x m : Z) : (0 < m)%Z → is_nan (fdiv x m) = false.
Proof. intros Hm. by rewrite fdiv_pos. Qed.

(** A positive count converts to a float64 of at least 1. *)
Lemma b64_round_count_pos (m : Z) : (0 < m)%Z → (1 <= b64_round (inject_Z m))%Q.
Proof.
  intros Hm. rewrite <- b64_round_1. apply b64_round_mono.
  change 1%Q with (inject_Z 1). apply inject_Z_le. lia.
Qed.

Lemma fdiv_self (m : Z) : (0 < m)%Z → fdiv m m = Fin 1.
Proof.
  intros Hm. rewrite fdiv_pos by done. f_equal.
  pose proof (b64_round_count_pos m Hm) as Hr.
  transitivity (b64_round 1); [|apply b64_round_1].
  apply b64_round_Qeq. field. Lqa.lra.
Qed.

(** The quotient of the converted counts, for a positive divisor, is
    monotone in the dividend. *)
Lemma converted_quotient_mono (x y m : Z) :
  (0 < m)%Z → (x <= y)%Z →
  (b64_round (inject_Z x) / b64_round (inject_Z m)
   <= b64_round (inject_Z y) / b64_round (inject_Z m))%Q.
Proof.
  intros Hm Hxy.
  pose proof (b64_round_count_pos m Hm) as Hr.
  pose proof (b64_round_mono _ _ (inject_Z_le x y Hxy)) as Hmono.
  unfold Qdiv. apply Qmult_le_compat_r; [done|].
  apply Qlt_le_weak, Qinv_lt_0_compat. Lqa.lra.
Qed.

Lemma fdiv_mono (x y m : Z) :
  (0 < m)%Z → (x <= y)%Z → score_le (fdiv x m) (fdiv y m) = true.
Proof.
  intros Hm Hxy. rewrite !fdiv_pos by done. simpl.
  apply Qle_bool_iff, b64_round_mono. by apply converted_quotient_mono.
Qed.

Lemma fdiv_le_one (x m : Z) :
  (0 < m)%Z → (x <= m)%Z → ∃ q, fdiv x m = Fin q ∧ (q <= 1)%Q.
Proof.
  intros Hm Hx. rewrite fdiv_pos by done. eexists. split; [done|].
  pose proof (b64_round_count_pos m Hm) as Hr.
  rewrite <- b64_round_1. apply b64_round_mono.
  pose proof (converted_quotient_mono x m m Hm Hx) as Hq.
  assert (E : (b64_round (inject_Z m) / b64_round (inject_Z m) == 1)%Q)
    by (field; Lqa.lra).
  by rewrite E in Hq.
Qed.

Lemma fdiv_unit_interval (x m : Z) :
  (0 < m)%Z → (0 <= x <= m)%Z →
  ∃ q, fdiv x m = Fin q ∧ (0 <= q)%Q ∧ (q <= 1)%Q.
Proof.
  intros Hm [H0 H1].
  destruct (fdiv_le_one x m Hm H1) as (q & Hq & Hle).
  exists q. split; [done|]. split; [|done].
  rewrite fdiv_pos in Hq by done. injection Hq as <-.
  pose proof (b64_round_count_pos m Hm) as Hr.
  rewrite <- b64_round_0 at 1. apply b64_round_mono.
  pose proof (converted_quotient_mono 0 x m Hm H0) as Hq.
  change (inject_Z 0) with 0%Q in Hq. rewrite b64_round_0 in Hq.
  assert (E : (0 / b64_round (inject_Z m) == 0)%Q) by (field; Lqa.lra).
  by rewrite E in Hq.
Qed.

(** Counts up to 2^53 convert without rounding, so their float64 quotient
    is the exact quotient rounded once. *)
Lemma fdiv_exact_operands (x m : Z) :
  (0 < m <= 2 ^ 53)%Z → (Z.abs x <= 2 ^ 53)%Z →
  fdiv x m = Fin (b64_round (inject_Z x / inject_Z m)).
Proof.
  intros Hm Hx. rewrite fdiv_pos by lia. f_equal. apply b64_round_Qeq.
  rewrite (b64_round_Z x) by done. rewrite (b64_round_Z m) by lia. reflexivity.
Qed.

(** For counts between 0 and a maximum of at most 2^53 the scores are
    ordered as the counts are. *)
Lemma fdiv_le (x y m : Z) :
  (0 <= x <= m)%Z → (0 <= y <= m)%Z → (0 < m <= 2 ^ 53)%Z →
  score_le (fdiv x m) (fdiv y m) = (x <=? y)%Z.
Proof.
  intros Hx Hy Hm. destruct (Z.leb_spec x y) as [Hle|Hlt].
  - apply fdiv_mono; lia.
  - rewrite !fdiv_exact_operands by lia. simpl.
    destruct (Qle_bool _ _) eqn:Hc; [|done].
    apply Qle_bool_iff in Hc.
    pose proof (b64_round_quotient_lt y x m ltac:(lia) ltac:(lia)). Lqa.lra.
Qed.

(** [fdiv] is the division the specification words. *)
Lemma fdiv_is_quotient (x m : Z) : is_quotient x m (fdiv x m).
Proof.
  unfold is_quotient, fdiv. destruct (m =? 0)%Z; [done|].
  eexists. eexists. eexists.
  split; [apply b64_round_nearest|]. split; [apply b64_round_nearest|].
  split; [apply b64_round_nearest|done].
Qed.

(** On small counts, on counts around 2^53 and on counts spread over the
    64-bit range, zero divisors included, [fdiv] gives the value that the
    binary64 division of the Standard Library gives. *)
Lemma fdiv_is_binary64_division :
  fdiv_matches_b64 small_counts small_counts
  && fdiv_matches_b64 counts_near_2_53 counts_near_2_53
  && fdiv_matches_b64 wide_counts wide_counts
  && fdiv_matches_b64 wide_counts counts_near_2_53 = true.
Proof. vm_compute. reflexivity. Qed.

(** ** The decoder on a buffer of the right size *)

Lemma bind_Some {X Y : Type} (x : X) (f : X -> option Y) : Some x ≫= f = f x.
Proof. done. Qed.

Lemma scores_of_sums_length (sums : list Z) :
  length (scores_of_sums sums) = length sums.
Proof. apply length_map. Qed.

Lemma location_sums_reshaped (n cfN : nat) (v : list Z) (s : list nat) :
  length v = n * cfN →
  location_sums n cfN (mk_ndarray v s) = Some (spec_totals n cfN v).
Proof.
  intros Hlen. unfold location_sums, set_shape. simpl.
  rewrite decide_True by lia. simpl. by apply sum_axis1_reshaped.
Qed.

Lemma normalize_scores (sums : list Z) :
  sums ≠ [] → normalize sums = Some (scores_of_sums sums).
Proof.
  intros Hne. unfold normalize, scores_of_sums, spec_max.
  destruct (amax_is_Some sums Hne) as [m Hm]. rewrite Hm. simpl.
  by rewrite (amax_spec_max _ _ Hm).
Qed.

Lemma spec_totals_nonempty (n cfN : nat) (v : list Z) :
  1 ≤ n → spec_totals n cfN v ≠ [].
Proof.
  intros Hn Hnil. apply (f_equal length) in Hnil.
  rewrite spec_totals_length in Hnil. simpl in Hnil. lia.
Qed.

(** Whatever shape the buffer had before, a run reshapes it and returns the
    scores of the 64-bit totals, with numpy's argmax of them. *)
Lemma decode_reshaped (n cfN : nat) (v : list Z) (s : list nat) :
  1 ≤ n → length v = n * cfN →
  decode n cfN (mk_ndarray v s)
  = (g ← argmax (scores_of_sums (spec_totals n cfN v));
     Some (mk_ndarray v [n; cfN], (scores_of_sums (spec_totals n cfN v), g))).
Proof.
  intros Hn Hlen. unfold decode, set_shape.
  rewrite decide_True by (simpl; lia).
  rewrite bind_Some, sum_axis1_reshaped by done.
  rewrite bind_Some, normalize_scores; [done|].
  by apply spec_totals_nonempty.
Qed.


(** Without a location nothing is drawn at line 30, and the decoder would
    raise at [amax]. *)
Lemma no_location_no_draw : randint 0 = [].
Proof. done. Qed.

Lemma decode_no_location (cfN : nat) (v : list Z) :
  decode 0 cfN (array1d v) = None.
Proof.
  unfold decode, set_shape. case_decide; [|done]. by rewrite bind_Some.
Qed.

Lemma decode_again (n cfN : nat) (c : ndarray) (r : ndarray * (list score * nat)) :
  decode n cfN c = Some r → decode n cfN r.1 = Some r.
Proof.
  unfold decode, set_shape. intros H.
  case_decide as Hsize; [|done]. rewrite bind_Some in H.
  destruct (sum_axis1 _) as [sums|] eqn:Esums; [|done]. rewrite bind_Some in H.
  destruct (normalize sums) as [scores|] eqn:Escores; [|done]. rewrite bind_Some in H.
  destruct (argmax scores) as [g|] eqn:Eg; [|done]. rewrite bind_Some in H.
  injection H as <-. cbn [fst data].
  rewrite decide_True by done.
  by rewrite bind_Some, Esums, bind_Some, Escores, bind_Some, Eg.
Qed.

Lemma decode_total (n cfN : nat) (v : list Z) (s : list nat) :
  1 ≤ n → length v = n * cfN →
  ∃ g, argmax (scores_of_sums (spec_totals n cfN v)) = Some g
       ∧ decode n cfN (mk_ndarray v s)
         = Some (mk_ndarray v [n; cfN],
                 (scores_of_sums (spec_totals n cfN v), g)).
Proof.
  intros Hn Hlen.
  assert (Hne : scores_of_sums (spec_totals n cfN v) ≠ []).
  { intros Hnil. apply (f_equal length) in Hnil.
    rewrite scores_of_sums_length, spec_totals_length in Hnil.
    simpl in Hnil. lia. }
  destruct (argmax_is_Some _ Hne) as [g Hg].
  exists g. split; [done|]. by rewrite decode_reshaped, Hg.
Qed.

(** ** Normalisation and the integer argmax *)

(** For sums between 0 and a maximum of at most 2^53, the scan of the float
    argmax over the scores takes the branches that the scan of the integer
    argmax takes over the sums. *)
Lemma argmax_loop_fdiv (m : Z) (ip : list Z) (mp : Z) (max_ind i : nat) :
  (0 < m <= 2 ^ 53)%Z → (0 <= mp <= m)%Z →
  Forall (fun x => (0 <= x <= m)%Z) ip →
  argmax_loop (fun x mp => negb (score_le x mp)) is_nan
    (fdiv mp m) max_ind i (map (fun x => fdiv x m) ip)
  = argmax_loop (fun x mp => (x >? mp)%Z) (fun _ => false) mp max_ind i ip.
Proof.
  intros Hm Hmp Hip. revert mp max_ind i Hmp.
  induction Hip as [|x rest Hx _ IH]; intros mp max_ind i Hmp; simpl; [done|].
  rewrite fdiv_le, fdiv_not_nan by lia.
  rewrite Z.gtb_ltb, Z.leb_antisym, negb_involutive.
  destruct (mp <? x)%Z; by apply IH.
Qed.

Lemma argmax_map_fdiv (m : Z) (sums : list Z) :
  (0 < m <= 2 ^ 53)%Z → Forall (fun x => (0 <= x <= m)%Z) sums →
  argmax (map (fun x => fdiv x m) sums) = argmax_int sums.
Proof.
  intros Hm Hsums. destruct Hsums as [|x rest Hx Hrest]; [done|].
  unfold argmax, argmax_int. simpl.
  rewrite fdiv_not_nan by lia. by rewrite argmax_loop_fdiv.
Qed.

Lemma argmax_int_is_Some (l : list Z) : l ≠ [] → is_Some (argmax_int l).
Proof. destruct l; [done|]. intros _. by eexists. Qed.

Lemma argmax_int_loop_first_max (ip pre : list Z) (mp : Z) (max_ind : nat) :
  pre !! max_ind = Some mp →
  (∀ k t, pre !! k = Some t → (t <= mp)%Z) →
  (∀ k t, k < max_ind → pre !! k = Some t → (t < mp)%Z) →
  ∃ m, (pre ++ ip) !! argmax_loop (fun x mp => (x >? mp)%Z) (fun _ => false)
                         mp max_ind (length pre) ip = Some m
       ∧ (∀ k t, (pre ++ ip) !! k = Some t → (t <= m)%Z)
       ∧ (∀ k t, k < argmax_loop (fun x mp => (x >? mp)%Z) (fun _ => false)
                        mp max_ind (length pre) ip →
                 (pre ++ ip) !! k = Some t → (t < m)%Z).
Proof.
  revert pre mp max_ind.
  induction ip as [|x rest IH]; intros pre mp max_ind Hmp Hall Hbefore; simpl.
  - rewrite app_nil_r. exists mp. eauto.
  - replace (pre ++ x :: rest) with ((pre ++ [x]) ++ rest)
      by (by rewrite <- app_assoc).
    replace (S (length pre)) with (length (pre ++ [x]))
      by (rewrite length_app; simpl; lia).
    destruct (x >? mp)%Z eqn:Hx.
    + apply Z.gtb_lt in Hx. apply IH.
      * rewrite lookup_app_r by lia. by rewrite Nat.sub_diag.
      * intros k t Hk. apply lookup_app_Some in Hk as [Hk|[_ Hk]].
        -- specialize (Hall _ _ Hk). lia.
        -- apply list_lookup_singleton_Some in Hk as [_ <-]. lia.
      * intros k t Hlt Hk. rewrite lookup_app_l in Hk by done.
        specialize (Hall _ _ Hk). lia.
    + assert (x <= mp)%Z by (destruct (Z.gtb_spec x mp); [done|lia]).
      apply IH.
      * rewrite lookup_app_l; [done|]. by eapply lookup_lt_Some.
      * intros k t Hk. apply lookup_app_Some in Hk as [Hk|[_ Hk]]; [eauto|].
        apply list_lookup_singleton_Some in Hk as [_ <-]. done.
      * intros k t Hlt Hk. apply lookup_app_Some in Hk as [Hk|[Hge _]]; [eauto|].
        apply lookup_lt_Some in Hmp. lia.
Qed.

(** The integer argmax is the first index that holds the maximum. *)
Lemma argmax_int_first_max (l : list Z) (g : nat) :
  argmax_int l = Some g →
  ∃ m, amax l = Some m ∧ l !! g = Some m
       ∧ ∀ k t, k < g → l !! k = Some t → (t < m)%Z.
Proof.
  destruct l as [|x rest]; [done|].
  unfold argmax_int. cbn [argmax_with]. intros [= <-].
  destruct (argmax_int_loop_first_max rest [x] x 0) as (m & Hg & Hall & Hfirst);
    [done| |intros; lia|].
  { intros k t Hk. apply list_lookup_singleton_Some in Hk as [_ <-]. lia. }
  cbn [app length] in Hg, Hall, Hfirst.
  exists m. split; [|split; [done|done]].
  destruct (amax_is_Some (x :: rest)) as [m' Hm']; [done|].
  rewrite Hm'. f_equal.
  pose proof (amax_in _ _ Hm') as Hin.
  apply list_elem_of_lookup in Hin as [k Hk].
  pose proof (Hall _ _ Hk).
  pose proof (amax_ge _ _ m Hm' (list_elem_of_lookup_2 _ _ _ Hg)). lia.
Qed.
(** ** All-zero counts *)

Lemma sum_zeros (l : list Z) : Forall (eq 0%Z) l → foldr Z.add 0%Z l = 0%Z.
Proof. induction 1 as [|x l <- _ IH]; simpl; [done|]. by rewrite IH. Qed.

Lemma spec_sums_zeros (n c : nat) (v : list Z) :
  Forall (eq 0%Z) v →
  spec_sum_over_frequency (spec_reshape n c v) = replicate n 0%Z.
Proof.
  revert v. induction n as [|n IH]; intros v Hv; [done|].
  simpl. f_equal.
  - apply sum_zeros. by apply Forall_take.
  - apply IH. by apply Forall_drop.
Qed.

Lemma spec_totals_zeros (n c : nat) (v : list Z) :
  Forall (eq 0%Z) v → spec_totals n c v = replicate n 0%Z.
Proof.
  intros Hv. unfold spec_totals. rewrite spec_sums_zeros by done.
  change (map ?f ?l) with (f <$> l). by rewrite fmap_replicate.
Qed.

Lemma max_zeros (n : nat) (a : Z) :
  foldr Z.max a (replicate n 0%Z) = Z.max 0 a ∨ n = 0.
Proof.
  induction n as [|n IH]; [by right|]. left. simpl.
  destruct IH as [->| ->]; simpl; lia.
Qed.

Lemma scores_of_zeros (n : nat) :
  scores_of_sums (replicate n 0%Z) = replicate n NaN.
Proof.
  unfold scores_of_sums, spec_max.
  destruct n as [|n]; [done|].
  replace (foldr Z.max _ _) with 0%Z.
  - change (map ?f ?l) with (f <$> l). by rewrite fmap_replicate.
  - simpl. destruct (max_zeros n 0) as [->| ->]; done.
Qed.

(** ** Sums that do not overflow *)

Lemma sum_app (l1 l2 : list Z) :
  foldr Z.add 0%Z (l1 ++ l2) = (foldr Z.add 0 l1 + foldr Z.add 0 l2)%Z.
Proof. induction l1 as [|x l1 IH]; simpl; lia. Qed.

Lemma spec_sums_total (n c : nat) (v : list Z) :
  length v = n * c →
  foldr Z.add 0%Z (spec_sum_over_frequency (spec_reshape n c v))
  = foldr Z.add 0%Z v.
Proof.
  revert v. induction n as [|n IH]; intros v Hlen.
  - by destruct v.
  - cbn [spec_reshape spec_sum_over_frequency map foldr].
    fold (spec_sum_over_frequency (spec_reshape n c (drop c v))).
    rewrite IH by (rewrite length_drop; lia).
    by rewrite <- sum_app, take_drop.
Qed.

Lemma sum_nonneg (l : list Z) :
  Forall (fun x => (0 <= x)%Z) l → (0 <= foldr Z.add 0 l)%Z.
Proof. induction 1 as [|x l Hx _ IH]; simpl; lia. Qed.

(** Each row of non-negative counts sums to at most the total of all the
    counts. *)
Lemma spec_sums_le_total (n c : nat) (v : list Z) :
  Forall (fun x => (0 <= x)%Z) v →
  Forall (fun x => (0 <= x <= foldr Z.add 0 v)%Z)
         (spec_sum_over_frequency (spec_reshape n c v)).
Proof.
  revert v. induction n as [|n IH]; intros v Hv; [by constructor|].
  assert (Htake : (0 <= foldr Z.add 0 (take c v))%Z)
    by (apply sum_nonneg; by apply Forall_take).
  assert (Hdrop : (0 <= foldr Z.add 0 (drop c v))%Z)
    by (apply sum_nonneg; by apply Forall_drop).
  assert (Hsplit : (foldr Z.add 0 v
                    = foldr Z.add 0 (take c v) + foldr Z.add 0 (drop c v))%Z)
    by (by rewrite <- sum_app, take_drop).
  constructor; [lia|].
  eapply Forall_impl; [apply IH; by apply Forall_drop|].
  intros x Hx. simpl in Hx. lia.
Qed.

Lemma map_wrap64_small (l : list Z) :
  Forall (fun x => (- 2 ^ 63 <= x < 2 ^ 63)%Z) l → map wrap64 l = l.
Proof.
  induction 1 as [|x l Hx _ IH]; [done|].
  simpl. by rewrite IH, wrap64_small.
Qed.

(** Non-negative counts whose total fits a 64-bit integer: no sum wraps. *)
Lemma spec_totals_no_wrap (n c : nat) (v : list Z) (B : Z) :
  Forall (fun x => (0 <= x)%Z) v →
  (foldr Z.add 0 v <= B)%Z → (B < 2 ^ 63)%Z →
  spec_totals n c v = spec_sum_over_frequency (spec_reshape n c v)
  ∧ Forall (fun x => (0 <= x <= B)%Z) (spec_totals n c v).
Proof.
  intros Hv Htotal HB.
  pose proof (spec_sums_le_total n c v Hv) as Hle.
  assert (Heq : spec_totals n c v
                = spec_sum_over_frequency (spec_reshape n c v)).
  { apply map_wrap64_small. eapply Forall_impl; [exact Hle|].
    intros x Hx. simpl in Hx. lia. }
  split; [done|]. rewrite Heq.
  eapply Forall_impl; [exact Hle|]. intros x Hx. simpl in Hx. lia.
Qed.

(** ** The run in terms of the per-location sums *)

Lemma location_sums_inv (n cfN : nat) (v sums : list Z) :
  location_sums n cfN (array1d v) = Some sums →
  length v = n * cfN ∧ sums = spec_totals n cfN v ∧ length sums = n.
Proof.
  intros Hsums.
  assert (Hlen : length v = n * cfN).
  { unfold location_sums, array1d, set_shape in Hsums. cbn [data] in Hsums.
    case_decide as Hsize; [simpl in Hsize; lia|done]. }
  unfold array1d in Hsums. rewrite location_sums_reshaped in Hsums by done.
  injection Hsums as <-. split; [done|]. split; [done|].
  apply spec_totals_length.
Qed.

Lemma decode_of_sums (n cfN : nat) (v sums : list Z) (m : Z) :
  location_sums n cfN (array1d v) = Some sums → amax sums = Some m →
  decode n cfN (array1d v)
  = (g ← argmax (map (fun x => fdiv x m) sums);
     Some (mk_ndarray v [n; cfN], (map (fun x => fdiv x m) sums, g))).
Proof.
  intros Hsums Hm.
  unfold location_sums in Hsums. unfold decode.
  unfold array1d, set_shape in *. cbn [data] in *.
  case_decide; [|done].
  rewrite bind_Some in Hsums. rewrite bind_Some, Hsums, bind_Some.
  unfold normalize. by rewrite Hm, !bind_Some.
Qed.

(** With a positive maximum and sums between 0 and 2^53: the estimate is
    the integer argmax of the sums. *)
Lemma decode_positive_max (n cfN : nat) (v sums : list Z) (m : Z) :
  location_sums n cfN (array1d v) = Some sums →
  amax sums = Some m → (0 < m)%Z →
  Forall (fun x => (0 <= x <= 2 ^ 53)%Z) sums →
  ∃ g, argmax_int sums = Some g
       ∧ decode n cfN (array1d v)
         = Some (mk_ndarray v [n; cfN], (map (fun x => fdiv x m) sums, g)).
Proof.
  intros Hsums Hm Hpos Hbound.
  assert (Hne : sums ≠ []) by (intros ->; done).
  destruct (argmax_int_is_Some sums Hne) as [g Hg].
  exists g. split; [done|].
  rewrite (decode_of_sums _ _ _ _ _ Hsums Hm).
  assert (Hmb : (m <= 2 ^ 53)%Z).
  { pose proof (proj1 (Forall_forall _ _) Hbound m (amax_in _ _ Hm)) as Hb.
    simpl in Hb. lia. }
  rewrite argmax_map_fdiv, Hg; [done|lia|].
  apply Forall_forall. intros x Hx.
  pose proof (proj1 (Forall_forall _ _) Hbound x Hx) as Hb. simpl in Hb.
  pose proof (amax_ge _ _ x Hm Hx). lia.
Qed.

(** For sums between 0 and 2^53, whatever their maximum: the run returns
    and its estimate is the first location holding the largest sum. *)
Lemma estimate_first_max (n cfN : nat) (v sums : list Z) :
  Forall (fun x => (0 <= x <= 2 ^ 53)%Z) sums →
  location_sums n cfN (array1d v) = Some sums → sums ≠ [] →
  ∃ r m, decode n cfN (array1d v) = Some r
         ∧ amax sums = Some m
         ∧ argmax_int sums = Some (index_guess_of r)
         ∧ sums !! index_guess_of r = Some m
         ∧ ∀ k t, k < index_guess_of r → sums !! k = Some t → (t < m)%Z.
Proof.
  intros Hnn Hsums Hne.
  destruct (amax_is_Some sums Hne) as [m Hm].
  destruct (decide (0 < m)%Z) as [Hpos|Hzero].
  - destruct (decode_positive_max n cfN v sums m Hsums Hm Hpos Hnn)
      as (g & Hg & Hrun).
    destruct (argmax_int_first_max sums g Hg) as (m' & Hm' & Hlook & Hfirst).
    rewrite Hm in Hm'. injection Hm' as <-.
    eexists. exists m. split; [exact Hrun|]. by repeat split.
  - (* every sum is 0, every score nan, and both scans stay at index 0 *)
    assert (Hall0 : ∀ k t, sums !! k = Some t → t = 0%Z).
    { intros k t Hk. pose proof (list_elem_of_lookup_2 _ _ _ Hk) as Hin.
      pose proof (amax_ge _ _ _ Hm Hin).
      pose proof (proj1 (Forall_forall _ _) Hnn _ Hin). simpl in *. lia. }
    destruct sums as [|s0 rest]; [done|].
    assert (s0 = 0%Z) as -> by (by apply (Hall0 0)).
    assert (m = 0%Z) as ->.
    { pose proof (amax_in _ _ Hm) as Hin.
      apply list_elem_of_lookup in Hin as [k Hk]. by apply (Hall0 k). }
    destruct (argmax_int_is_Some (0%Z :: rest)) as [g Hg]; [done|].
    destruct (argmax_int_first_max _ g Hg) as (m' & Hm' & Hlook & Hfirst).
    rewrite Hm in Hm'. injection Hm' as <-.
    assert (g = 0) as ->.
    { destruct g as [|g]; [done|].
      specialize (Hfirst 0 0%Z ltac:(lia) eq_refl). lia. }
    exists (mk_ndarray v [n; cfN], (map (fun x => fdiv x 0) (0%Z :: rest), 0)), 0%Z.
    split; [|by repeat split].
    by rewrite (decode_of_sums _ _ _ _ _ Hsums Hm).
Qed.

(** ** Scaling and reordering the counts *)

Lemma sum_scale (k : Z) (l : list Z) :
  foldr Z.add 0%Z (map (Z.mul k) l) = (k * foldr Z.add 0 l)%Z.
Proof. induction l as [|x l IH]; simpl; lia. Qed.

Lemma spec_sums_scale (k : Z) (n c : nat) (v : list Z) :
  spec_sum_over_frequency (spec_reshape n c (map (Z.mul k) v))
  = map (Z.mul k) (spec_sum_over_frequency (spec_reshape n c v)).
Proof.
  revert v. induction n as [|n IH]; intros v; [done|].
  cbn [spec_reshape spec_sum_over_frequency map].
  fold (spec_sum_over_frequency (spec_reshape n c (drop c (map (Z.mul k) v)))).
  fold (spec_sum_over_frequency (spec_reshape n c (drop c v))).
  change (map (Z.mul k) v) with (Z.mul k <$> v).
  rewrite <- fmap_take, <- fmap_drop. f_equal; [apply sum_scale|apply IH].
Qed.

Lemma max_scale (k a : Z) (l : list Z) :
  (0 <= k)%Z →
  foldr Z.max (k * a)%Z (map (Z.mul k) l) = (k * foldr Z.max a l)%Z.
Proof.
  intros Hk. induction l as [|x l IH]; simpl; [done|].
  rewrite IH. by apply Z.mul_max_distr_nonneg_l.
Qed.

Lemma spec_max_scale (k : Z) (l : list Z) :
  (0 <= k)%Z → spec_max (map (Z.mul k) l) = (k * spec_max l)%Z.
Proof.
  intros Hk. unfold spec_max.
  replace (hd 0%Z (map (Z.mul k) l)) with (k * hd 0 l)%Z
    by (destruct l; simpl; lia).
  by apply max_scale.
Qed.

(** While the scaled counts stay within 2^53, where the conversion to
    float64 is exact, a common factor cancels in the float64 quotient. *)
Lemma fdiv_scale (k x m : Z) :
  (0 < k)%Z → (0 <= m)%Z → (k * m <= 2 ^ 53)%Z → (Z.abs (k * x) <= 2 ^ 53)%Z →
  fdiv (k * x) (k * m) = fdiv x m.
Proof.
  intros Hk Hm0 Hkm Hkx.
  destruct (Z.eq_dec m 0%Z) as [->|Hm].
  - unfold fdiv. rewrite Z.mul_0_r. simpl.
    destruct (Z.eqb_spec x 0) as [->|Hx]; [by rewrite Z.mul_0_r|].
    destruct (Z.eqb_spec (k * x) 0); [nia|].
    destruct (Z.ltb_spec 0 x), (Z.ltb_spec 0 (k * x)); try done; nia.
  - rewrite !fdiv_exact_operands by nia.
    f_equal. apply b64_round_Qeq.
    rewrite !inject_Z_mult. field.
    split; intros H; change 0%Q with (inject_Z 0) in H;
      apply (proj1 (inject_Z_injective _ _)) in H; lia.
Qed.

Lemma spec_max_in (l : list Z) : l ≠ [] → spec_max l ∈ l.
Proof.
  intros Hne. destruct (amax_is_Some l Hne) as [m Hm].
  unfold spec_max. rewrite <- (amax_spec_max _ _ Hm). by apply amax_in.
Qed.

Lemma sum_Permutation (l l' : list Z) :
  l ≡ₚ l' → foldr Z.add 0%Z l = foldr Z.add 0%Z l'.
Proof. induction 1; simpl; lia. Qed.

(** A buffer laid out row after row reshapes back to its rows. *)
Lemma spec_reshape_concat (c : nat) (rows : list (list Z)) :
  Forall (fun row => length row = c) rows →
  spec_reshape (length rows) c (concat rows) = rows.
Proof.
  induction 1 as [|row rows Hrow _ IH]; [done|].
  cbn [length concat spec_reshape].
  rewrite take_app_length' by done. rewrite drop_app_length' by done.
  by rewrite IH.
Qed.

Lemma length_concat_rows (c : nat) (rows : list (list Z)) :
  Forall (fun row => length row = c) rows →
  length (concat rows) = length rows * c.
Proof.
  induction 1 as [|row rows Hrow _ IH]; [done|].
  cbn [concat length]. rewrite length_app. lia.
Qed.

(** ** Channel plumbing *)

Section HearsFacts.
Context {sample freq : Type}.
Variable convolve : list sample -> list sample -> list sample.
Variable gammatone : freq -> list sample -> list sample.

Lemma mapM_app_Some {X Y : Type} (f : X -> option Y) (l1 l2 : list X)
    (k1 k2 : list Y) :
  mapM f l1 = Some k1 → mapM f l2 = Some k2 → mapM f (l1 ++ l2) = Some (k1 ++ k2).
Proof. rewrite !mapM_Some. apply Forall2_app. Qed.

Lemma mapM_replicate_Some {X Y : Type} (f : X -> option Y) (n : nat) (x : X) (y : Y) :
  f x = Some y → mapM f (replicate n x) = Some (replicate n y).
Proof. intros Hf. apply mapM_Some. by apply Forall2_replicate. Qed.

(** The channels of a repeat, read through any prefix of the source. *)
Lemma Repeat_from (pre src : fbank sample) (n : nat) :
  mapM (fun k => (pre ++ src) !! k)
       (flat_map (fun k => replicate n k) (seq (length pre) (length src)))
  = Some (flat_map (fun c => replicate n c) src).
Proof.
  revert pre. induction src as [|c src IH]; intros pre; [done|].
  cbn [length seq flat_map].
  apply mapM_app_Some.
  - apply mapM_replicate_Some. by apply list_lookup_middle.
  - specialize (IH (pre ++ [c])).
    rewrite <- app_assoc, length_app in IH. simpl in IH.
    by rewrite Nat.add_1_r in IH.
Qed.

(** [Repeat] never raises: each channel [numrepeat] times in a row. *)
Lemma Repeat_Some (source : fbank sample) (numrepeat : nat) :
  Repeat source numrepeat = Some (flat_map (fun c => replicate numrepeat c) source).
Proof. apply (Repeat_from [] source numrepeat). Qed.

Lemma length_flat_map_replicate {X : Type} (l : list X) (n : nat) :
  length (flat_map (fun c => replicate n c) l) = length l * n.
Proof.
  induction l as [|c l IH]; [done|]. simpl.
  by rewrite length_app, length_replicate, IH.
Qed.

Lemma length_tile {X : Type} (cf : list X) (reps : nat) :
  length (tile cf reps) = reps * length cf.
Proof.
  unfold tile. induction reps as [|r IH]; [done|]. simpl.
  by rewrite length_app, IH.
Qed.

Lemma hrtf_fb_mono (hs : HRTFSet sample) (index : nat) (h : HRTF sample)
    (x : list sample) :
  hrtf hs !! index = Some h →
  hrtf_fb convolve hs index [x]
  = Some [convolve (left h) x; convolve (right h) x].
Proof. intros Hh. unfold hrtf_fb. by rewrite Hh. Qed.

Lemma swapped_channels_mono (hs : HRTFSet sample) (index : nat) (h : HRTF sample)
    (x : list sample) :
  hrtf hs !! index = Some h →
  swapped_channels convolve hs index [x]
  = Some [convolve (right h) x; convolve (left h) x].
Proof.
  intros Hh. unfold swapped_channels. by rewrite (hrtf_fb_mono _ _ h).
Qed.

(** All left-ear filters on channel 0, all right-ear filters on channel 1. *)
Lemma HRTFSet_filterbank_repeated (hs : HRTFSet sample) (a b : list sample) :
  HRTFSet_filterbank convolve hs
    (replicate (num_indices hs) a ++ replicate (num_indices hs) b)
  = Some (map (fun h => convolve (left h) a) (hrtf hs)
          ++ map (fun h => convolve (right h) b) (hrtf hs)).
Proof.
  unfold HRTFSet_filterbank, FIRFilterbank, num_indices.
  rewrite decide_True
    by (by rewrite !length_app, !length_map, !length_replicate).
  rewrite bind_Some. f_equal.
  rewrite zip_with_app by (by rewrite length_map, length_replicate).
  rewrite !zip_with_replicate_r_eq by (by rewrite length_map).
  change (map left (hrtf hs)) with (left <$> hrtf hs).
  change (map right (hrtf hs)) with (right <$> hrtf hs).
  by rewrite <- !list_fmap_compose.
Qed.

Lemma hrtfset_fb_mono (hs : HRTFSet sample) (index : nat) (h0 : HRTF sample)
    (x : list sample) :
  hrtf hs !! index = Some h0 →
  hrtfset_fb convolve hs index [x]
  = Some (map (fun h => convolve (left h) (convolve (right h0) x)) (hrtf hs)
          ++ map (fun h => convolve (right h) (convolve (left h0) x)) (hrtf hs)).
Proof.
  intros Hh. unfold hrtfset_fb.
  rewrite (swapped_channels_mono _ _ h0) by done.
  rewrite bind_Some, Repeat_Some, bind_Some.
  cbn [flat_map]. rewrite app_nil_r.
  apply HRTFSet_filterbank_repeated.
Qed.

Lemma lookup_flat_map_replicate {X : Type} (l : list X) (n i : nat) :
  i < length l * n →
  flat_map (fun c => replicate n c) l !! i = l !! (i / n).
Proof.
  revert i. induction l as [|c l IH]; intros i Hi; [simpl in Hi; lia|].
  assert (Hn : n ≠ 0) by (intros ->; lia).
  cbn [flat_map]. destruct (decide (i < n)) as [Hlt|Hge].
  - rewrite lookup_app_l by (by rewrite length_replicate).
    rewrite lookup_replicate_2 by done. by rewrite Nat.div_small.
  - rewrite lookup_app_r by (rewrite length_replicate; lia).
    rewrite length_replicate, IH by (simpl in Hi; lia).
    replace i with ((i - n) + 1 * n) at 2 by lia.
    rewrite Nat.div_add by done. by rewrite Nat.add_1_r.
Qed.

Lemma lookup_tile {X : Type} (cf : list X) (reps i : nat) :
  i < reps * length cf → tile cf reps !! i = cf !! (i mod length cf).
Proof.
  unfold tile. revert i. induction reps as [|r IH]; intros i Hi; [lia|].
  assert (Hn : length cf ≠ 0) by (intros Hz; rewrite Hz in Hi; lia).
  cbn [replicate concat]. destruct (decide (i < length cf)) as [Hlt|Hge].
  - rewrite lookup_app_l by done. by rewrite Nat.mod_small.
  - rewrite lookup_app_r by lia. rewrite IH by (simpl in Hi; lia).
    replace i with ((i - length cf) + 1 * length cf) at 2 by lia.
    by rewrite Nat.Div0.mod_add.
Qed.

(** Channel [i] of [gfb]: location channel [i / cfN] of the bank over the
    set, filtered at centre frequency [cf[i mod cfN]]. *)
Lemma Gammatone_Repeat_tile_lookup (fb : list (list sample)) (cf : list freq)
    (i : nat) (c : freq) (ch : list sample) :
  fb !! (i / length cf) = Some ch → cf !! (i mod length cf) = Some c →
  i < length fb * length cf →
  zip_with gammatone (tile cf (length fb))
    (flat_map (fun c => replicate (length cf) c) fb) !! i
  = Some (gammatone c ch).
Proof.
  intros Hch Hc Hi. rewrite lookup_zip_with.
  rewrite lookup_tile, Hc by done. simpl.
  by rewrite lookup_flat_map_replicate, Hch by done.
Qed.

(** [G] has one unit per ear, location and centre frequency. *)
Lemma cochlea_nchannels (f : sample -> sample) (cf : list freq)
    (hs : HRTFSet sample) (index : nat) (x : list sample) :
  index < num_indices hs →
  ∃ fb, cochlea convolve gammatone f cf hs index [x] = Some fb
        ∧ length fb = 2 * (num_indices hs * length cf).
Proof.
  intros Hi. destruct (lookup_lt_is_Some_2 (hrtf hs) index Hi) as [h0 Hh].
  unfold cochlea, gfb. rewrite (hrtfset_fb_mono _ _ h0) by done.
  rewrite bind_Some, Repeat_Some, bind_Some.
  unfold Gammatone.
  rewrite decide_True by (by rewrite length_tile, length_flat_map_replicate).
  rewrite bind_Some. eexists. split; [done|].
  unfold FunctionFilterbank.
  rewrite length_map, length_zip_with, length_tile, length_flat_map_replicate.
  rewrite length_app, !length_map. unfold num_indices. lia.
Qed.
(** What drives the units [i] and [i + N] of [G]: the same location
    [i / cfN] and centre frequency [cf[i mod cfN]], on the right-ear
    signal of the true location for [i], on its left-ear signal for
    [i + N]. *)
Lemma cochlea_channels (f : sample -> sample) (cf : list freq)
    (hs : HRTFSet sample) (index : nat) (h0 : HRTF sample) (x : list sample) :
  hrtf hs !! index = Some h0 →
  ∃ fb, cochlea convolve gammatone f cf hs index [x] = Some fb
        ∧ ∀ i, i < num_indices hs * length cf →
            ∃ h c, hrtf hs !! (i / length cf) = Some h
                   ∧ cf !! (i mod length cf) = Some c
                   ∧ fb !! i
                     = Some (map f (gammatone c
                               (convolve (left h) (convolve (right h0) x))))
                   ∧ fb !! (i + num_indices hs * length cf)
                     = Some (map f (gammatone c
                               (convolve (right h) (convolve (left h0) x)))).
Proof.
  intros Hh. unfold cochlea, gfb. rewrite (hrtfset_fb_mono _ _ h0) by done.
  rewrite bind_Some, Repeat_Some, bind_Some.
  unfold Gammatone.
  rewrite decide_True by (by rewrite length_tile, length_flat_map_replicate).
  rewrite bind_Some. eexists. split; [done|].
  intros i Hi. unfold num_indices in *.
  set (n := length (hrtf hs)) in *.
  assert (Hc0 : length cf ≠ 0) by (intros Hz; rewrite Hz in Hi; lia).
  assert (Hk : i / length cf < n) by (apply Nat.Div0.div_lt_upper_bound; lia).
  destruct (lookup_lt_is_Some_2 (hrtf hs) (i / length cf) Hk) as [h Hlk].
  destruct (lookup_lt_is_Some_2 cf (i mod length cf)) as [c Hlc];
    [by apply Nat.mod_upper_bound|].
  exists h, c. split; [done|]. split; [done|].
  set (L := map (fun h1 => convolve (left h1) _) (hrtf hs)).
  set (R := map (fun h1 => convolve (right h1) _) (hrtf hs)).
  assert (HL : length L = n) by apply length_map.
  assert (HR : length R = n) by apply length_map.
  unfold FunctionFilterbank. change (map (map f) ?l) with (map f <$> l).
  rewrite !list_lookup_fmap. split.
  - rewrite (Gammatone_Repeat_tile_lookup (L ++ R) cf i c
               (convolve (left h) (convolve (right h0) x))); [done| |done|].
    + rewrite lookup_app_l by lia. subst L.
      change (map ?g ?l) with (g <$> l). by rewrite list_lookup_fmap, Hlk.
    + rewrite length_app. nia.
  - assert (Hdiv : (i + n * length cf) / length cf = n + i / length cf)
      by (rewrite Nat.div_add by done; lia).
    assert (Hmod : (i + n * length cf) mod length cf = i mod length cf)
      by (by rewrite Nat.Div0.mod_add).
    rewrite (Gammatone_Repeat_tile_lookup (L ++ R) cf (i + n * length cf) c
               (convolve (right h) (convolve (left h0) x))); [done| | |].
    + rewrite Hdiv. rewrite lookup_app_r by lia.
      replace (n + i / length cf - length L) with (i / length cf) by lia. subst R.
      change (map ?g ?l) with (g <$> l). by rewrite list_lookup_fmap, Hlk.
    + by rewrite Hmod.
    + rewrite length_app. nia.
Qed.
End HearsFacts.

(** ** The wiring loop *)

Lemma wire_body_Some (N : nat) (C : Connection) (i : nat) :
  i + N < nsrc C → i < ntgt C →
  wire_body N C i
  = Some (mk_Connection (nsrc C) (ntgt C)
            (<[(i + N, i) := (1 # 2)%Q]> (<[(i, i) := (1 # 2)%Q]> (W C)))).
Proof.
  intros Hs Ht. unfold wire_body, setitem.
  rewrite decide_True by lia. rewrite bind_Some. simpl.
  by rewrite decide_True by lia.
Qed.

Lemma pair_neq (a b c d : nat) : (a, b) ≠ (c, d) → a ≠ c ∨ b ≠ d.
Proof.
  intros Hne. destruct (decide (a = c)) as [->|]; [|by left].
  right. intros ->. by apply Hne.
Qed.

Ltac split_pairs :=
  repeat match goal with
         | H : (_, _) ≠ (_, _) |- _ => apply pair_neq in H
         end.

(** After the iterations [a .. a+len-1], exactly their two entries each
    have been written. *)
Lemma wire_loop (N len a : nat) (C : Connection) :
  a + len ≤ N → 2 * N ≤ nsrc C → ntgt C = N →
  ∃ C', for_each (wire_body N) C (seq a len) = Some C'
        ∧ nsrc C' = nsrc C ∧ ntgt C' = ntgt C
        ∧ ∀ j i, W C' !! (j, i)
                 = if decide (a ≤ i < a + len ∧ (j = i ∨ j = i + N))
                   then Some (1 # 2)%Q else W C !! (j, i).
Proof.
  revert a C. induction len as [|len IH]; intros a C Ha Hs Ht.
  - exists C. repeat split; try done. intros j i.
    by rewrite decide_False by lia.
  - cbn [seq for_each].
    rewrite wire_body_Some by lia. rewrite bind_Some.
    set (C1 := mk_Connection _ _ _).
    destruct (IH (S a) C1) as (C' & Hrun & Hsrc & Htgt & HW); [lia|done|done|].
    exists C'. repeat split; try done.
    intros j i. rewrite HW. subst C1. cbn [W].
    rewrite !lookup_insert.
    repeat case_decide; simplify_eq; split_pairs; try done; lia.
Qed.

Lemma wire_entries (n cfN : nat) :
  ∃ C, wire (2 * (n * cfN)) n cfN = Some C
       ∧ nsrc C = 2 * (n * cfN) ∧ ntgt C = n * cfN
       ∧ ∀ j i, W C !! (j, i)
                = if decide (i < n * cfN ∧ (j = i ∨ j = i + n * cfN))
                  then Some (1 # 2)%Q else None.
Proof.
  unfold wire.
  destruct (wire_loop (n * cfN) (n * cfN) 0
              (Connection_new (2 * (n * cfN)) (n * cfN)))
    as (C & Hrun & Hsrc & Htgt & HW); [lia|simpl; lia|done|].
  exists C. repeat split; try done.
  intros j i. rewrite HW. simpl. rewrite lookup_empty.
  repeat case_decide; try done; lia.
Qed.

Lemma filter_seq_none (P : nat -> Prop) `{∀ j, Decision (P j)} (a len : nat) :
  (∀ j, a ≤ j < a + len → ¬ P j) → filter P (seq a len) = [].
Proof.
  revert a. induction len as [|len IH]; intros a Hn; [done|].
  simpl. rewrite filter_cons_False by (apply Hn; lia).
  apply IH. intros j Hj. apply Hn. lia.
Qed.

(** Two sources, [i] and [i + N], and no other, are selected below [2N]. *)
Lemma filter_seq_two (P : nat -> Prop) `{∀ j, Decision (P j)} (N i : nat) :
  i < N → (∀ j, P j ↔ j = i ∨ j = i + N) →
  filter P (seq 0 (2 * N)) = [i; i + N].
Proof.
  intros Hi HP.
  replace (2 * N) with (i + (1 + ((N - 1) + (1 + (N - i - 1))))) by lia.
  rewrite !seq_app, !filter_app. simpl.
  rewrite (filter_seq_none P 0 i) by (intros j Hj; rewrite HP; lia).
  rewrite filter_cons_True by (rewrite HP; lia).
  rewrite (filter_seq_none P (i + 1) (N - 1)) by (intros j Hj; rewrite HP; lia).
  rewrite filter_cons_True by (rewrite HP; lia).
  rewrite filter_nil.
  rewrite (filter_seq_none P _ (N - i - 1)) by (intros j Hj; rewrite HP; lia).
  simpl. do 2 f_equal. lia.
Qed.

(** ** The cochlear nonlinearity *)

Lemma clip_0_Inf (x : R) : clip x 0 Inf = Rmax x 0.
Proof. done. Qed.

Lemma third_not_integer (z : Z) : IZR z ≠ (1 / 3)%R.
Proof.
  intros Hz. assert (H3 : IZR (3 * z) = IZR 1) by (rewrite mult_IZR; lra).
  apply eq_IZR in H3. lia.
Qed.

(** Without the clip a negative sample would have no cube root: the power
    of a negative base to the exponent 1/3 is nan. *)
Lemma power_negative_base (x : R) : (x < 0)%R → power x (1 / 3) = Nan.
Proof.
  intros Hx. unfold power.
  destruct (Rlt_dec 0 x); [lra|]. destruct (Rlt_dec x 0); [|lra].
  destruct (Req_dec_T _ _) as [Hint|]; [|done].
  by apply third_not_integer in Hint.
Qed.

(** The lambda of line 53 in closed form: it is never nan. *)
Lemma cochlea_lambda_closed (x : R) :
  cochlea_lambda x
  = Real (if Rlt_dec 0 x then 15 * Rpower x (1 / 3) else 0)%R.
Proof.
  unfold cochlea_lambda. rewrite clip_0_Inf. unfold power.
  destruct (Rlt_dec 0 x) as [Hpos|Hneg].
  - rewrite Rmax_left by lra. by destruct (Rlt_dec 0 x).
  - rewrite Rmax_right by lra.
    destruct (Rlt_dec 0 0); [lra|].
    destruct (Rlt_dec 0 (1 / 3)); [|lra].
    simpl. f_equal. lra.
Qed.

Lemma cochlea_fn_closed (x : R) :
  cochlea_fn x = (if Rlt_dec 0 x then 15 * Rpower x (1 / 3) else 0)%R.
Proof. unfold cochlea_fn. by rewrite cochlea_lambda_closed. Qed.



(** ** Scores at the top of the scale *)

Lemma fdiv_ge_one_is_one (x m : Z) :
  (0 < m)%Z → (x <= m)%Z →
  score_le (Fin 1) (fdiv x m) = true → fdiv x m = Fin 1.
Proof.
  intros Hm Hx Hge.
  destruct (fdiv_le_one x m Hm Hx) as (q & Hq & Hle).
  rewrite Hq in Hge. simpl in Hge. apply Qle_bool_iff in Hge.
  rewrite fdiv_pos in Hq |- * by done. injection Hq as Hq.
  f_equal. change 1%Q with (Qred 1). apply b64_round_eq.
  rewrite Hq. Lqa.lra.
Qed.

Lemma smul_100_one : smul 100 (Fin 1) = Fin 100.
Proof. vm_compute. reflexivity. Qed.

Lemma b64_round_100 : b64_round 100 = 100%Q.
Proof. vm_compute. reflexivity. Qed.

Lemma smul_100_le (q : Q) :
  (q <= 1)%Q → score_le (smul 100 (Fin q)) (Fin 100) = true.
Proof.
  intros Hq. simpl. apply Qle_bool_iff.
  rewrite <- b64_round_100 at 2. apply b64_round_mono. Lqa.lra.
Qed.

Lemma scores_of_sums_scale (k : Z) (T : list Z) (B : Z) :
  (0 < k)%Z → T ≠ [] → Forall (fun x => (0 <= x <= B)%Z) T →
  (k * B <= 2 ^ 53)%Z →
  scores_of_sums (map (Z.mul k) T) = scores_of_sums T.
Proof.
  intros Hk Hne HT HB. unfold scores_of_sums.
  rewrite spec_max_scale by lia. rewrite map_map.
  pose proof (proj1 (Forall_forall _ _) HT _ (spec_max_in T Hne)) as HM.
  simpl in HM.
  apply map_ext_in. intros x Hx. apply list_elem_of_In in Hx.
  pose proof (proj1 (Forall_forall _ _) HT _ Hx) as Hxb. simpl in Hxb.
  apply fdiv_scale; [done|lia|nia|]. rewrite Z.abs_eq by nia. nia.
Qed.

(** * The decoder *)

(** C1.  On a count vector of [num_indices*cfN] entries the decoder returns
    one score per location and an estimate.  The scores are what the
    stated algorithm gives: the count vector is reshaped to
    [(num_indices, cfN)] and summed over frequency (in the 64-bit integers
    of the array: the exact sums whenever these fit), and each score is a
    float64 quotient of a sum by the maximum of the sums (for sums within
    2^53 and a positive maximum: a float64 nearest to the exact quotient).
    The estimate is the arg-max of these scores, the only index with that
    property.  (With no location at all, line 30 has raised already.) *)
Theorem decode_reshape_sum_normalize_argmax (n cfN : nat) (v : list Z) :
  1 ≤ n → length v = n * cfN →
  ∃ scores g,
    decode n cfN (array1d v) = Some (mk_ndarray v [n; cfN], (scores, g))
    ∧ length scores = n
    ∧ Forall2 (fun x s => is_quotient x (spec_max (spec_totals n cfN v)) s)
              (spec_totals n cfN v) scores
    ∧ is_argmax scores g
    ∧ (∀ g', is_argmax scores g' → g' = g)
    ∧ (Forall (fun t => (- 2 ^ 63 <= t < 2 ^ 63)%Z)
              (spec_sum_over_frequency (spec_reshape n cfN v)) →
       spec_totals n cfN v
       = spec_sum_over_frequency (spec_reshape n cfN v))
    ∧ (Forall (fun t => (Z.abs t <= 2 ^ 53)%Z) (spec_totals n cfN v) →
       (0 < spec_max (spec_totals n cfN v))%Z →
       Forall2 (fun x s =>
                  ∃ f, s = Fin f
                       ∧ nearest (inject_Z x
                                  / inject_Z (spec_max (spec_totals n cfN v))) f)
               (spec_totals n cfN v) scores).
Proof.
  intros Hn Hlen.
  destruct (decode_total n cfN v [length v] Hn Hlen) as (g & Hg & Hrun).
  exists (scores_of_sums (spec_totals n cfN v)), g.
  split; [done|].
  split; [by rewrite scores_of_sums_length, spec_totals_length|].
  split.
  { unfold scores_of_sums. apply Forall2_fmap_r, Forall_Forall2_diag.
    apply Forall_forall. intros x _. apply fdiv_is_quotient. }
  pose proof (argmax_is_argmax _ _ Hg) as Harg.
  split; [done|]. split; [|split; [apply map_wrap64_small|]].
  { intros g' Hg'. by eapply is_argmax_unique. }
  intros Hbound Hpos.
  pose proof (spec_max_in _ (spec_totals_nonempty n cfN v Hn)) as Hin.
  pose proof (proj1 (Forall_forall _ _) Hbound _ Hin) as Hmax.
  simpl in Hmax.
  unfold scores_of_sums. apply Forall2_fmap_r, Forall_Forall2_diag.
  apply Forall_forall. intros x Hx.
  pose proof (proj1 (Forall_forall _ _) Hbound _ Hx) as Hxb. simpl in Hxb.
  unfold compose. cbn beta. rewrite fdiv_exact_operands by lia.
  eexists. split; [done|]. apply b64_round_nearest.
Qed.

Lemma decode_reshape_sum_normalize_argmax_witness :
  1 ≤ 2 ∧ length demo_counts = 2 * 3
  ∧ ∃ scores g,
      decode 2 3 (array1d demo_counts)
      = Some (mk_ndarray demo_counts [2; 3], (scores, g))
      ∧ length scores = 2
      ∧ Forall2 (fun x s => is_quotient x (spec_max (spec_totals 2 3 demo_counts)) s)
                (spec_totals 2 3 demo_counts) scores
      ∧ is_argmax scores g
      ∧ (∀ g', is_argmax scores g' → g' = g)
      ∧ (Forall (fun t => (- 2 ^ 63 <= t < 2 ^ 63)%Z)
                (spec_sum_over_frequency (spec_reshape 2 3 demo_counts)) →
         spec_totals 2 3 demo_counts
         = spec_sum_over_frequency (spec_reshape 2 3 demo_counts))
      ∧ (Forall (fun t => (Z.abs t <= 2 ^ 53)%Z) (spec_totals 2 3 demo_counts) →
         (0 < spec_max (spec_totals 2 3 demo_counts))%Z →
         Forall2 (fun x s =>
                    ∃ f, s = Fin f
                         ∧ nearest (inject_Z x
                                    / inject_Z (spec_max (spec_totals 2 3 demo_counts))) f)
                 (spec_totals 2 3 demo_counts) scores).
Proof.
  split; [lia|]. split; [reflexivity|].
  apply (decode_reshape_sum_normalize_argmax 2 3 demo_counts); [lia|reflexivity].
Defined.

(** C6, as the code has it.  With every count zero (and at least one
    location) the per-location sums are all zero, their maximum is zero,
    every score is nan, and the run still returns: the estimate is index 0.
    With a positive maximum the normalization succeeds: it returns, and
    every score is a finite number. *)
Theorem zero_counts_nan_scores_estimate_0 :
  (∀ n cfN : nat, 1 ≤ n →
     let zeros := replicate (n * cfN) 0%Z in
     location_sums n cfN (array1d zeros) = Some (replicate n 0%Z)
     ∧ amax (replicate n 0%Z) = Some 0%Z
     ∧ decode n cfN (array1d zeros)
       = Some (mk_ndarray zeros [n; cfN], (replicate n NaN, 0)))
  ∧ (∀ (sums : list Z) (m : Z), amax sums = Some m → (0 < m)%Z →
       ∃ scores, normalize sums = Some scores
                 ∧ Forall (fun s => ∃ q, s = Fin q) scores).
Proof.
  split.
  - intros n cfN Hn zeros.
    assert (Hz : Forall (eq 0%Z) zeros) by (apply Forall_replicate; done).
    assert (Hlen : length zeros = n * cfN) by apply length_replicate.
    split; [|split].
    + unfold array1d. rewrite location_sums_reshaped by done.
      by rewrite spec_totals_zeros.
    + destruct n as [|n]; [lia|]. simpl. f_equal.
      rewrite foldl_Zmax_foldr. destruct (max_zeros n 0) as [->| ->]; done.
    + unfold array1d. rewrite decode_reshaped by done.
      rewrite spec_totals_zeros, scores_of_zeros by done.
      destruct n as [|n]; [lia|done].
  - intros sums m Hm Hpos. unfold normalize. rewrite Hm, bind_Some.
    eexists. split; [done|].
    apply Forall_forall. intros s Hs.
    apply (list_elem_of_fmap (fun x => fdiv x m)) in Hs as (x & -> & Hx).
    rewrite fdiv_pos by done. by eexists.
Qed.

Lemma zero_counts_nan_scores_estimate_0_witness :
  (1 ≤ 2
   ∧ decode 2 3 (array1d (replicate (2 * 3) 0%Z))
     = Some (mk_ndarray (replicate (2 * 3) 0%Z) [2; 3], (replicate 2 NaN, 0)))
  ∧ (amax [3; 6]%Z = Some 6%Z ∧ (0 < 6)%Z
     ∧ ∃ scores, normalize [3; 6]%Z = Some scores
                 ∧ Forall (fun s => ∃ q, s = Fin q) scores).
Proof.
  split.
  - split; [lia|].
    apply (proj1 zero_counts_nan_scores_estimate_0 2 3). lia.
  - split; [reflexivity|]. split; [lia|].
    apply (proj2 zero_counts_nan_scores_estimate_0 [3; 6]%Z 6%Z); [reflexivity|lia].
Defined.

(** C6, as stated, fails: with all counts zero the scores are nan, but the
    estimate is not: it is location 0, a valid index, and both markers are
    drawn. *)
Lemma zero_counts_estimate_is_an_index :
  decode 2 3 (array1d [0; 0; 0; 0; 0; 0]%Z)
  = Some (mk_ndarray [0; 0; 0; 0; 0; 0]%Z [2; 3], ([NaN; NaN], 0))
  ∧ plot_markers demo_hrtfset 1 0 = Some ((15, 0)%Z, (0, 0)%Z).
Proof. split; reflexivity. Qed.

(** C7.  Running lines 74-79 a second time on the same counter, whose array
    the first run has reshaped in place, gives the same scores and the same
    estimate (and leaves the counter as the first run left it). *)
Theorem decode_twice_same (n cfN : nat) (v : list Z) :
  1 ≤ n → length v = n * cfN →
  ∃ r, decode n cfN (array1d v) = Some r
       ∧ shape r.1 = [n; cfN]
       ∧ decode n cfN r.1 = Some r.
Proof.
  intros Hn Hlen.
  destruct (decode_total n cfN v [length v] Hn Hlen) as (g & _ & Hrun).
  eexists. split; [exact Hrun|]. split; [done|].
  exact (decode_again _ _ _ _ Hrun).
Qed.

Lemma decode_twice_same_witness :
  1 ≤ 2 ∧ length demo_counts = 2 * 3
  ∧ ∃ r, decode 2 3 (array1d demo_counts) = Some r
         ∧ shape r.1 = [2; 3]
         ∧ decode 2 3 r.1 = Some r.
Proof.
  split; [lia|]. split; [reflexivity|].
  apply (decode_twice_same 2 3 demo_counts); [lia|reflexivity].
Defined.




(** C9.  Non-negative sums with a positive maximum are normalised to
    scores that all lie in [0, 1], and one of them is exactly 1. *)
Theorem normalized_scores_in_unit_interval (sums : list Z) (m : Z) :
  amax sums = Some m → (0 < m)%Z → Forall (fun x => (0 <= x)%Z) sums →
  ∃ scores, normalize sums = Some scores
            ∧ Forall (fun s => ∃ q, s = Fin q ∧ (0 <= q)%Q ∧ (q <= 1)%Q) scores
            ∧ Fin 1 ∈ scores.
Proof.
  intros Hm Hpos Hnonneg. unfold normalize. rewrite Hm, bind_Some.
  eexists. split; [done|]. split.
  - apply Forall_forall. intros s Hs.
    apply (list_elem_of_fmap (fun x => fdiv x m)) in Hs as (x & -> & Hx).
    apply fdiv_unit_interval; [done|]. split.
    + by apply (proj1 (Forall_forall _ _) Hnonneg).
    + by eapply amax_ge.
  - rewrite <- (fdiv_self m Hpos).
    apply (list_elem_of_fmap_2 (fun x => fdiv x m)). by apply amax_in.
Qed.

Lemma normalized_scores_in_unit_interval_witness :
  amax [6; 13; 0]%Z = Some 13%Z ∧ (0 < 13)%Z
  ∧ Forall (fun x => (0 <= x)%Z) [6; 13; 0]%Z
  ∧ ∃ scores, normalize [6; 13; 0]%Z = Some scores
              ∧ Forall (fun s => ∃ q, s = Fin q ∧ (0 <= q)%Q ∧ (q <= 1)%Q) scores
              ∧ Fin 1 ∈ scores.
Proof.
  split; [reflexivity|]. split; [lia|].
  assert (Hnn : Forall (fun x => (0 <= x)%Z) [6; 13; 0]%Z)
    by (repeat constructor; lia).
  split; [exact Hnn|].
  apply (normalized_scores_in_unit_interval [6; 13; 0]%Z 13%Z);
    [reflexivity|lia|exact Hnn].
Defined.

(** C10.  With at least one location, coordinate arrays of [num_indices]
    entries and a count vector of [num_indices*cfN] entries: a draw of
    [randint] exists, every draw is below [num_indices], the run returns an
    estimate below [num_indices], and the four coordinate lookups of the
    markers succeed. *)
Theorem plot_indices_in_bounds {sample : Type} (hs : HRTFSet sample)
    (cfN : nat) (v : list Z) :
  1 ≤ num_indices hs →
  length (coordinates hs) = num_indices hs →
  length v = num_indices hs * cfN →
  randint (num_indices hs) ≠ []
  ∧ ∀ index, index ∈ randint (num_indices hs) →
      index < num_indices hs
      ∧ ∃ r, decode (num_indices hs) cfN (array1d v) = Some r
             ∧ index_guess_of r < num_indices hs
             ∧ is_Some (plot_markers hs index (index_guess_of r)).
Proof.
  intros Hn Hcoords Hlen. split.
  - unfold randint. destruct (num_indices hs); [lia|done].
  - intros index Hindex. unfold randint in Hindex.
    apply elem_of_seq in Hindex. split; [lia|].
    destruct (decode_total (num_indices hs) cfN v [length v] Hn Hlen)
      as (g & Hg & Hrun).
    eexists. split; [exact Hrun|].
    pose proof (is_argmax_lt _ _ (argmax_is_argmax _ _ Hg)) as Hlt.
    rewrite scores_of_sums_length, spec_totals_length in Hlt.
    split; [done|]. unfold index_guess_of, plot_markers. cbn [snd].
    assert (Hlook : ∀ i, i < num_indices hs →
              is_Some (azim hs !! i) ∧ is_Some (elev hs !! i)).
    { intros i Hi. split; apply lookup_lt_is_Some_2;
        unfold azim, elev; rewrite length_map; lia. }
    destruct (Hlook index) as [[a ->] [e ->]]; [lia|].
    destruct (Hlook g) as [[a' ->] [e' ->]]; [done|].
    by eexists.
Qed.

Lemma plot_indices_in_bounds_witness :
  1 ≤ num_indices demo_hrtfset
  ∧ length (coordinates demo_hrtfset) = num_indices demo_hrtfset
  ∧ length demo_counts = num_indices demo_hrtfset * 3
  ∧ randint (num_indices demo_hrtfset) ≠ []
  ∧ ∀ index, index ∈ randint (num_indices demo_hrtfset) →
      index < num_indices demo_hrtfset
      ∧ ∃ r, decode (num_indices demo_hrtfset) 3 (array1d demo_counts) = Some r
             ∧ index_guess_of r < num_indices demo_hrtfset
             ∧ is_Some (plot_markers demo_hrtfset index (index_guess_of r)).
Proof.
  split; [cbv; lia|]. split; [reflexivity|]. split; [reflexivity|].
  apply (plot_indices_in_bounds demo_hrtfset 3 demo_counts);
    [cbv; lia|reflexivity|reflexivity].
Defined.

(** * The filter stages *)

(** C2.  For a mono sound and a stored location, the HRTF stage outputs two
    channels, the sound through the left and through the right impulse
    response, and the swapped stage outputs the same two channels in the
    other order. *)
Theorem swapped_channels_swaps {sample : Type}
    (convolve : list sample -> list sample -> list sample)
    (hs : HRTFSet sample) (index : nat) (sound : fbank sample) :
  index < num_indices hs → length sound = 1 →
  ∃ h x fb sw,
    hrtf hs !! index = Some h ∧ sound = [x]
    ∧ hrtf_fb convolve hs index sound = Some fb
    ∧ fb = [convolve (left h) x; convolve (right h) x]
    ∧ swapped_channels convolve hs index sound = Some sw
    ∧ length sw = 2
    ∧ sw !! 0 = fb !! 1 ∧ sw !! 1 = fb !! 0.
Proof.
  intros Hi Hmono.
  destruct (lookup_lt_is_Some_2 (hrtf hs) index Hi) as [h Hh].
  destruct sound as [|x [|]]; try done.
  exists h, x. eexists. eexists. split; [done|]. split; [done|].
  rewrite (hrtf_fb_mono _ _ _ h) by done. split; [done|]. split; [done|].
  rewrite (swapped_channels_mono _ _ _ h) by done. done.
Qed.

Lemma swapped_channels_swaps_witness :
  1 < num_indices demo_hrtfset ∧ length demo_sound = 1
  ∧ ∃ h x fb sw,
      hrtf demo_hrtfset !! 1 = Some h ∧ demo_sound = [x]
      ∧ hrtf_fb demo_convolve demo_hrtfset 1 demo_sound = Some fb
      ∧ fb = [demo_convolve (left h) x; demo_convolve (right h) x]
      ∧ swapped_channels demo_convolve demo_hrtfset 1 demo_sound = Some sw
      ∧ length sw = 2
      ∧ sw !! 0 = fb !! 1 ∧ sw !! 1 = fb !! 0.
Proof.
  split; [cbv; lia|]. split; [reflexivity|].
  apply (swapped_channels_swaps demo_convolve demo_hrtfset 1 demo_sound);
    [cbv; lia|reflexivity].
Defined.

(** C3, as the code has it.  The bank over the whole set outputs two
    channels per stored location, [2*num_indices] in all: channel [k] is
    the left impulse response of location [k] on swapped channel 0 (the
    right ear of the true location), channel [num_indices + k] is the
    right impulse response of location [k] on swapped channel 1. *)
Theorem hrtfset_fb_two_channels_per_location {sample : Type}
    (convolve : list sample -> list sample -> list sample)
    (hs : HRTFSet sample) (index : nat) (sound : fbank sample) :
  index < num_indices hs → length sound = 1 →
  ∃ h0 x out,
    hrtf hs !! index = Some h0 ∧ sound = [x]
    ∧ hrtfset_fb convolve hs index sound = Some out
    ∧ length out = 2 * num_indices hs
    ∧ ∀ k h, hrtf hs !! k = Some h →
        out !! k = Some (convolve (left h) (convolve (right h0) x))
        ∧ out !! (num_indices hs + k)
          = Some (convolve (right h) (convolve (left h0) x)).
Proof.
  intros Hi Hmono.
  destruct (lookup_lt_is_Some_2 (hrtf hs) index Hi) as [h0 Hh].
  destruct sound as [|x [|]]; try done.
  exists h0, x. eexists. split; [done|]. split; [done|].
  rewrite (hrtfset_fb_mono _ _ _ h0) by done. split; [done|]. split.
  - rewrite length_app, !length_map. unfold num_indices. lia.
  - intros k h Hk. pose proof (lookup_lt_Some _ _ _ Hk) as Hlt. split.
    + rewrite lookup_app_l by (by rewrite length_map).
      change (map ?f ?l) with (f <$> l). by rewrite list_lookup_fmap, Hk.
    + rewrite lookup_app_r by (rewrite length_map; unfold num_indices; lia).
      rewrite length_map. unfold num_indices.
      replace (length (hrtf hs) + k - length (hrtf hs)) with k by lia.
      change (map ?f ?l) with (f <$> l). by rewrite list_lookup_fmap, Hk.
Qed.

Lemma hrtfset_fb_two_channels_per_location_witness :
  1 < num_indices demo_hrtfset ∧ length demo_sound = 1
  ∧ ∃ h0 x out,
      hrtf demo_hrtfset !! 1 = Some h0 ∧ demo_sound = [x]
      ∧ hrtfset_fb demo_convolve demo_hrtfset 1 demo_sound = Some out
      ∧ length out = 2 * num_indices demo_hrtfset
      ∧ ∀ k h, hrtf demo_hrtfset !! k = Some h →
          out !! k = Some (demo_convolve (left h) (demo_convolve (right h0) x))
          ∧ out !! (num_indices demo_hrtfset + k)
            = Some (demo_convolve (right h) (demo_convolve (left h0) x)).
Proof.
  split; [cbv; lia|]. split; [reflexivity|].
  apply (hrtfset_fb_two_channels_per_location demo_convolve demo_hrtfset 1 demo_sound);
    [cbv; lia|reflexivity].
Defined.

(** C3, as stated, fails: with two stored locations the bank outputs four
    channels, not two. *)
Lemma hrtfset_fb_not_num_indices_channels :
  ∃ out, hrtfset_fb demo_convolve demo_hrtfset 1 demo_sound = Some out
         ∧ num_indices demo_hrtfset = 2
         ∧ length out = 4
         ∧ length out ≠ num_indices demo_hrtfset.
Proof. eexists. split; [reflexivity|]. repeat split. cbv. lia. Qed.



(** * The wiring *)

(** C5.  [G] has one unit per channel of [cochlea], twice
    [N = num_indices*cfN] of them; the loop then runs to its end, and in
    the matrix it leaves every coincidence detector [i < N] has exactly the
    two inputs [i] and [i + N], each of weight 0.5, and no entry from any
    other source unit.  Unit [i] of [G] carries the right-ear signal of the
    true location and unit [i + N] its left-ear signal, both through the
    filters of the same candidate location and centre frequency. *)
Theorem wire_two_inputs {sample freq : Type}
    (convolve : list sample -> list sample -> list sample)
    (gammatone : freq -> list sample -> list sample)
    (f : sample -> sample) (cf : list freq)
    (hs : HRTFSet sample) (index : nat) (h0 : HRTF sample) (x : list sample) :
  hrtf hs !! index = Some h0 →
  let N := num_indices hs * length cf in
  ∃ fb C,
    cochlea convolve gammatone f cf hs index [x] = Some fb
    ∧ length fb = 2 * N
    ∧ wire (length fb) (num_indices hs) (length cf) = Some C
    ∧ ∀ i, i < N →
        inputs C i = [i; i + N]
        ∧ W C !! (i, i) = Some (1 # 2)%Q
        ∧ W C !! (i + N, i) = Some (1 # 2)%Q
        ∧ (∀ j, j ≠ i → j ≠ i + N → W C !! (j, i) = None)
        ∧ ∃ h c, hrtf hs !! (i / length cf) = Some h
                 ∧ cf !! (i mod length cf) = Some c
                 ∧ fb !! i
                   = Some (map f (gammatone c
                             (convolve (left h) (convolve (right h0) x))))
                 ∧ fb !! (i + N)
                   = Some (map f (gammatone c
                             (convolve (right h) (convolve (left h0) x)))).
Proof.
  intros Hh N. pose proof (lookup_lt_Some _ _ _ Hh) as Hi.
  destruct (cochlea_nchannels convolve gammatone f cf hs index x Hi)
    as (fb & Hfb & Hlen).
  destruct (cochlea_channels convolve gammatone f cf hs index h0 x Hh)
    as (fb' & Hfb' & Hch).
  rewrite Hfb in Hfb'. injection Hfb' as <-.
  destruct (wire_entries (num_indices hs) (length cf))
    as (C & Hrun & Hsrc & Htgt & HW).
  fold N in Hlen, Hrun, Hsrc, Htgt, HW, Hch.
  exists fb, C. split; [done|]. split; [done|].
  split; [by rewrite Hlen|].
  intros i HiN. split; [|split; [|split; [|split]]].
  - unfold inputs. rewrite Hsrc. apply filter_seq_two; [done|].
    intros j. rewrite HW. case_decide as Hd.
    + split; [tauto|]. intros _. by eexists.
    + split; [intros [? [=]]|]. intros Hj. destruct Hd. split; done.
  - rewrite HW. by rewrite decide_True by (split; [done|by left]).
  - rewrite HW. by rewrite decide_True by (split; [done|by right]).
  - intros j Hj1 Hj2. rewrite HW. by rewrite decide_False by tauto.
  - by apply Hch.
Qed.

Lemma wire_two_inputs_witness :
  hrtf demo_hrtfset !! 1 = Some (mk_HRTF [3]%Z [5; 1]%Z)
  ∧ 4 < num_indices demo_hrtfset * 3
  ∧ ∃ fb C,
      cochlea demo_convolve demo_gain Z.abs [10; 100; 1000]%Z demo_hrtfset 1
        [[1; 2; 0; -1]%Z] = Some fb
      ∧ length fb = 2 * (num_indices demo_hrtfset * 3)
      ∧ wire (length fb) (num_indices demo_hrtfset) 3 = Some C
      ∧ inputs C 4 = [4; 4 + num_indices demo_hrtfset * 3]
      ∧ W C !! (4, 4) = Some (1 # 2)%Q
      ∧ W C !! (4 + num_indices demo_hrtfset * 3, 4) = Some (1 # 2)%Q
      ∧ ∀ j, j ≠ 4 → j ≠ 4 + num_indices demo_hrtfset * 3 → W C !! (j, 4) = None.
Proof.
  split; [reflexivity|]. split; [cbv; lia|].
  destruct (wire_two_inputs demo_convolve demo_gain Z.abs [10; 100; 1000]%Z
              demo_hrtfset 1 (mk_HRTF [3]%Z [5; 1]%Z) [1; 2; 0; -1]%Z)
    as (fb & C & Hfb & Hlen & HC & Hin); [reflexivity|].
  exists fb, C. split; [exact Hfb|]. split; [exact Hlen|]. split; [exact HC|].
  destruct (Hin 4) as (H1 & H2 & H3 & H4 & _); [cbv; lia|].
  split; [exact H1|]. split; [exact H2|]. split; [exact H3|exact H4].
Defined.

(** * Further properties of the decoder *)

(** ** When a run returns *)

(** X1.  [decode] returns exactly when there is a location and the counter has
    one entry per location and frequency: otherwise the reshape or [amax]
    raises. *)
Theorem decode_returns_iff (n cfN : nat) (c : ndarray) :
  is_Some (decode n cfN c) ↔ 1 ≤ n ∧ length (data c) = n * cfN.
Proof.
  destruct c as [v s]. split.
  - intros Hret. unfold decode, set_shape in Hret. cbn [data] in Hret.
    case_decide as Hsize; [|by destruct Hret].
    simpl in Hsize. simpl. split; [|lia].
    destruct n as [|n]; [|lia]. by destruct Hret.
  - intros [Hn Hlen]. simpl in Hlen.
    destruct (decode_total n cfN v s Hn Hlen) as (g & _ & ->). by eexists.
Qed.

(** ** Conservation of spikes *)

(** X2.  For counts that are not negative and whose total fits a 64-bit
    integer, the per-location sums add up to the number of spikes
    counted. *)
Theorem location_sums_total (n cfN : nat) (c : ndarray) (sums : list Z) :
  location_sums n cfN c = Some sums →
  Forall (fun x => (0 <= x)%Z) (data c) →
  (foldr Z.add 0 (data c) < 2 ^ 63)%Z →
  foldr Z.add 0%Z sums = foldr Z.add 0%Z (data c).
Proof.
  destruct c as [v s]. cbn [data]. intros Hsums Hv Htotal.
  assert (Hlen : length v = n * cfN).
  { unfold location_sums, set_shape in Hsums. cbn [data] in Hsums.
    case_decide as Hsize; [simpl in Hsize; lia|done]. }
  rewrite location_sums_reshaped in Hsums by done.
  injection Hsums as <-.
  destruct (spec_totals_no_wrap n cfN v (foldr Z.add 0%Z v) Hv) as [-> _];
    [lia|done|].
  by apply spec_sums_total.
Qed.

Lemma location_sums_total_witness :
  location_sums 2 3 (array1d demo_counts) = Some [6; 13]%Z
  ∧ Forall (fun x => (0 <= x)%Z) (data (array1d demo_counts))
  ∧ (foldr Z.add 0 (data (array1d demo_counts)) < 2 ^ 63)%Z
  ∧ foldr Z.add 0%Z [6; 13]%Z = foldr Z.add 0%Z (data (array1d demo_counts)).
Proof.
  assert (Hnn : Forall (fun x => (0 <= x)%Z) (data (array1d demo_counts)))
    by (repeat constructor; lia).
  assert (Hb : (foldr Z.add 0 (data (array1d demo_counts)) < 2 ^ 63)%Z)
    by (vm_compute; reflexivity).
  split; [reflexivity|]. split; [exact Hnn|]. split; [exact Hb|].
  apply (location_sums_total 2 3 (array1d demo_counts) [6; 13]%Z);
    [reflexivity|exact Hnn|exact Hb].
Defined.

(** ** The estimate in terms of the spike totals *)

(** X3.  For spike counts (none negative, at most 2^53 in total), with or
    without spikes: the run returns, and the estimate is the first location
    whose sum over frequency is the largest; it is the integer argmax of
    the sums. *)
Theorem estimate_is_first_largest_sum (n cfN : nat) (v : list Z) :
  1 ≤ n → length v = n * cfN → Forall (fun x => (0 <= x)%Z) v →
  (foldr Z.add 0 v <= 2 ^ 53)%Z →
  ∃ r sums m,
    decode n cfN (array1d v) = Some r
    ∧ location_sums n cfN (array1d v) = Some sums
    ∧ amax sums = Some m
    ∧ sums !! index_guess_of r = Some m
    ∧ (∀ k t, k < index_guess_of r → sums !! k = Some t → (t < m)%Z)
    ∧ raw_index_guess n cfN (array1d v) = Some (index_guess_of r).
Proof.
  intros Hn Hlen Hv Htotal.
  pose proof (location_sums_reshaped n cfN v [length v] Hlen) as Hsums.
  fold (array1d v) in Hsums.
  destruct (spec_totals_no_wrap n cfN v (2 ^ 53)%Z Hv Htotal) as [_ Hbound];
    [lia|].
  pose proof (spec_totals_nonempty n cfN v Hn) as Hne.
  destruct (estimate_first_max n cfN v _ Hbound Hsums Hne)
    as (r & m & Hrun & Hm & Hint & Hlook & Hfirst).
  exists r, (spec_totals n cfN v), m. repeat split; try done.
  unfold raw_index_guess. by rewrite Hsums, bind_Some.
Qed.

Lemma estimate_is_first_largest_sum_witness :
  1 ≤ 2 ∧ length [0; 5; 2; 4; 0; 3]%Z = 2 * 3
  ∧ Forall (fun x => (0 <= x)%Z) [0; 5; 2; 4; 0; 3]%Z
  ∧ (foldr Z.add 0 [0; 5; 2; 4; 0; 3] <= 2 ^ 53)%Z
  ∧ ∃ r sums m,
      decode 2 3 (array1d [0; 5; 2; 4; 0; 3]%Z) = Some r
      ∧ location_sums 2 3 (array1d [0; 5; 2; 4; 0; 3]%Z) = Some sums
      ∧ amax sums = Some m
      ∧ sums !! index_guess_of r = Some m
      ∧ (∀ k t, k < index_guess_of r → sums !! k = Some t → (t < m)%Z)
      ∧ raw_index_guess 2 3 (array1d [0; 5; 2; 4; 0; 3]%Z)
        = Some (index_guess_of r).
Proof.
  assert (Hnn : Forall (fun x => (0 <= x)%Z) [0; 5; 2; 4; 0; 3]%Z)
    by (repeat constructor; lia).
  assert (Hb : (foldr Z.add 0 [0; 5; 2; 4; 0; 3] <= 2 ^ 53)%Z)
    by (vm_compute; discriminate).
  split; [lia|]. split; [reflexivity|]. split; [exact Hnn|].
  split; [exact Hb|].
  apply (estimate_is_first_largest_sum 2 3 [0; 5; 2; 4; 0; 3]%Z);
    [lia|reflexivity|exact Hnn|exact Hb].
Defined.

(** X4.  For spike counts (none negative, at most 2^53 in total): when one
    location has a sum strictly above every other, that location is the
    estimate. *)
Theorem strict_winner_is_estimate (n cfN : nat) (v sums : list Z) (i : nat) (x : Z) :
  Forall (fun x => (0 <= x)%Z) v →
  (foldr Z.add 0 v <= 2 ^ 53)%Z →
  location_sums n cfN (array1d v) = Some sums →
  sums !! i = Some x →
  (∀ k y, k ≠ i → sums !! k = Some y → (y < x)%Z) →
  index_guess_of <$> decode n cfN (array1d v) = Some i.
Proof.
  intros Hv Htotal Hsums Hi Hwin.
  assert (Hne : sums ≠ []) by (intros ->; done).
  destruct (location_sums_inv _ _ _ _ Hsums) as (_ & Heq & _).
  destruct (spec_totals_no_wrap n cfN v (2 ^ 53)%Z Hv Htotal) as [_ Hbound];
    [lia|].
  rewrite <- Heq in Hbound.
  destruct (estimate_first_max n cfN v sums Hbound Hsums Hne)
    as (r & m & Hrun & Hm & _ & Hlook & _).
  rewrite Hrun. simpl. f_equal.
  destruct (decide (index_guess_of r = i)) as [|Hne']; [done|].
  pose proof (Hwin _ _ Hne' Hlook).
  pose proof (amax_ge _ _ x Hm (list_elem_of_lookup_2 _ _ _ Hi)). lia.
Qed.

Lemma strict_winner_is_estimate_witness :
  Forall (fun x => (0 <= x)%Z) demo_counts
  ∧ (foldr Z.add 0 demo_counts <= 2 ^ 53)%Z
  ∧ location_sums 2 3 (array1d demo_counts) = Some [6; 13]%Z
  ∧ [6; 13]%Z !! 1 = Some 13%Z
  ∧ (∀ k y, k ≠ 1 → [6; 13]%Z !! k = Some y → (y < 13)%Z)
  ∧ index_guess_of <$> decode 2 3 (array1d demo_counts) = Some 1.
Proof.
  assert (Hnn : Forall (fun x => (0 <= x)%Z) demo_counts)
    by (repeat constructor; lia).
  assert (Hb : (foldr Z.add 0 demo_counts <= 2 ^ 53)%Z)
    by (vm_compute; discriminate).
  assert (Hwin : ∀ k y, k ≠ 1 → [6; 13]%Z !! k = Some y → (y < 13)%Z).
  { intros [|[|k]] y Hk Hy; [injection Hy as <-; lia|done|done]. }
  split; [exact Hnn|]. split; [exact Hb|].
  split; [reflexivity|]. split; [reflexivity|].
  split; [exact Hwin|].
  apply (strict_winner_is_estimate 2 3 demo_counts [6; 13]%Z 1 13%Z);
    [exact Hnn|exact Hb|reflexivity|reflexivity|exact Hwin].
Defined.

(** ** The plot (line 83) *)

(** X7.  With a positive maximum, the estimated location has score exactly 1,
    its circle has size 100, and no circle is larger. *)
Theorem estimate_has_largest_marker (n cfN : nat) (v sums : list Z) (m : Z) :
  location_sums n cfN (array1d v) = Some sums →
  amax sums = Some m → (0 < m)%Z →
  ∃ r, decode n cfN (array1d v) = Some r
       ∧ count_of r !! index_guess_of r = Some (Fin 1)
       ∧ scatter_sizes (count_of r) !! index_guess_of r = Some (Fin 100)
       ∧ ∀ k s, scatter_sizes (count_of r) !! k = Some s →
                score_le s (Fin 100) = true.
Proof.
  intros Hsums Hm Hpos.
  assert (Hne : map (fun x => fdiv x m) sums ≠ []).
  { intros Hnil. apply map_eq_nil in Hnil. by subst sums. }
  destruct (argmax_is_Some _ Hne) as [g Hg].
  rewrite (decode_of_sums _ _ _ _ _ Hsums Hm), Hg, bind_Some.
  eexists. split; [done|].
  unfold count_of, index_guess_of, scatter_sizes. cbn [fst snd].
  change (map ?f ?l) with (f <$> l) in *.
  change (map (fun x => fdiv x m) sums) with ((fun x => fdiv x m) <$> sums).
  destruct (argmax_is_argmax _ _ Hg) as (s & Hs & Hall & _).
  assert (Hone : ((fun x => fdiv x m) <$> sums) !! g = Some (Fin 1)).
  { rewrite Hs. f_equal.
    rewrite list_lookup_fmap in Hs.
    destruct (sums !! g) as [x|] eqn:Hx; [|done].
    injection Hs as <-.
    pose proof (amax_ge _ _ x Hm (list_elem_of_lookup_2 _ _ _ Hx)) as Hle.
    apply fdiv_ge_one_is_one; [done|done|].
    pose proof (amax_in _ _ Hm) as Hin.
    apply list_elem_of_lookup in Hin as [k Hk].
    specialize (Hall k (Fin 1)).
    rewrite list_lookup_fmap, Hk in Hall. cbn in Hall.
    rewrite (fdiv_self m Hpos) in Hall. specialize (Hall eq_refl).
    unfold not_above in Hall. by rewrite fdiv_not_nan in Hall. }
  split; [done|]. split.
  - rewrite (list_lookup_fmap (smul 100)), Hone.
    cbn [fmap option_fmap option_map]. by rewrite smul_100_one.
  - intros k t. rewrite !list_lookup_fmap.
    destruct (sums !! k) as [x|] eqn:Hk; [|done].
    cbn [fmap option_fmap option_map]. intros [= <-].
    pose proof (amax_ge _ _ x Hm (list_elem_of_lookup_2 _ _ _ Hk)) as Hle.
    destruct (fdiv_le_one x m Hpos Hle) as (q & -> & Hq).
    by apply smul_100_le.
Qed.

Lemma estimate_has_largest_marker_witness :
  location_sums 2 3 (array1d demo_counts) = Some [6; 13]%Z
  ∧ amax [6; 13]%Z = Some 13%Z ∧ (0 < 13)%Z
  ∧ ∃ r, decode 2 3 (array1d demo_counts) = Some r
         ∧ count_of r !! index_guess_of r = Some (Fin 1)
         ∧ scatter_sizes (count_of r) !! index_guess_of r = Some (Fin 100)
         ∧ ∀ k s, scatter_sizes (count_of r) !! k = Some s →
                  score_le s (Fin 100) = true.
Proof.
  split; [reflexivity|]. split; [reflexivity|]. split; [lia|].
  apply (estimate_has_largest_marker 2 3 demo_counts [6; 13]%Z 13%Z);
    [reflexivity|reflexivity|lia].
Defined.

(** ** What the scores do not depend on *)

(** X5.  For spike counts (none negative) that stay within 2^53 in total
    after the multiplication: multiplying every count by the same positive
    factor changes neither the scores nor the estimate. *)
Theorem decode_scale_invariant (n cfN : nat) (v : list Z) (k : Z) :
  (0 < k)%Z → 1 ≤ n → length v = n * cfN →
  Forall (fun x => (0 <= x)%Z) v →
  (k * foldr Z.add 0 v <= 2 ^ 53)%Z →
  ∃ r r', decode n cfN (array1d v) = Some r
          ∧ decode n cfN (array1d (map (Z.mul k) v)) = Some r'
          ∧ count_of r' = count_of r
          ∧ index_guess_of r' = index_guess_of r.
Proof.
  intros Hk Hn Hlen Hv Htotal.
  assert (Hlen' : length (map (Z.mul k) v) = n * cfN) by (by rewrite length_map).
  pose proof (sum_nonneg v Hv) as Hsum.
  assert (Hv' : Forall (fun x => (0 <= x)%Z) (map (Z.mul k) v)).
  { apply Forall_forall. intros y Hy.
    apply (list_elem_of_fmap (Z.mul k)) in Hy as (x & -> & Hx).
    pose proof (proj1 (Forall_forall _ _) Hv x Hx) as H0. simpl in H0. nia. }
  destruct (spec_totals_no_wrap n cfN v (foldr Z.add 0%Z v) Hv) as [HT Hbound];
    [lia|nia|].
  destruct (spec_totals_no_wrap n cfN (map (Z.mul k) v) (2 ^ 53)%Z Hv')
    as [HT' _]; [by rewrite sum_scale|lia|].
  assert (Hsc : scores_of_sums (spec_totals n cfN (map (Z.mul k) v))
                = scores_of_sums (spec_totals n cfN v)).
  { rewrite HT', spec_sums_scale, <- HT.
    apply (scores_of_sums_scale k _ (foldr Z.add 0%Z v)); try done.
    by apply spec_totals_nonempty. }
  destruct (decode_total n cfN v [length v] Hn Hlen) as (g & Hg & Hrun).
  destruct (decode_total n cfN _ [length (map (Z.mul k) v)] Hn Hlen')
    as (g' & Hg' & Hrun').
  rewrite Hsc in Hg', Hrun'. rewrite Hg in Hg'. injection Hg' as <-.
  eexists. eexists. split; [exact Hrun|]. split; [exact Hrun'|]. done.
Qed.

Lemma decode_scale_invariant_witness :
  (0 < 3)%Z ∧ 1 ≤ 2 ∧ length demo_counts = 2 * 3
  ∧ Forall (fun x => (0 <= x)%Z) demo_counts
  ∧ (3 * foldr Z.add 0 demo_counts <= 2 ^ 53)%Z
  ∧ ∃ r r', decode 2 3 (array1d demo_counts) = Some r
            ∧ decode 2 3 (array1d (map (Z.mul 3) demo_counts)) = Some r'
            ∧ count_of r' = count_of r
            ∧ index_guess_of r' = index_guess_of r.
Proof.
  assert (Hnn : Forall (fun x => (0 <= x)%Z) demo_counts)
    by (repeat constructor; lia).
  assert (Hb : (3 * foldr Z.add 0 demo_counts <= 2 ^ 53)%Z)
    by (vm_compute; discriminate).
  split; [lia|]. split; [lia|]. split; [reflexivity|].
  split; [exact Hnn|]. split; [exact Hb|].
  apply (decode_scale_invariant 2 3 demo_counts 3%Z);
    [lia|lia|reflexivity|exact Hnn|exact Hb].
Defined.

(** X6.  Reordering the frequency channels inside each location changes neither
    the scores nor the estimate. *)
Theorem decode_frequency_order_irrelevant (cfN : nat) (rows rows' : list (list Z)) :
  rows ≠ [] →
  Forall (fun row => length row = cfN) rows →
  Forall2 (fun row row' => row ≡ₚ row') rows rows' →
  ∃ r r', decode (length rows) cfN (array1d (concat rows)) = Some r
          ∧ decode (length rows) cfN (array1d (concat rows')) = Some r'
          ∧ count_of r' = count_of r
          ∧ index_guess_of r' = index_guess_of r.
Proof.
  intros Hne Hrows Hperm.
  assert (Hn : 1 ≤ length rows) by (destruct rows; [done|simpl; lia]).
  assert (Hrows' : Forall (fun row => length row = cfN) rows').
  { clear Hne Hn. induction Hperm as [|row row' rows rows' Hp _ IH]; [done|].
    apply Forall_cons in Hrows as [Hrow Hrows].
    constructor; [|by apply IH]. by rewrite <- Hp. }
  pose proof (Forall2_length _ _ _ Hperm) as Hlen.
  assert (Hsc : scores_of_sums (spec_totals (length rows) cfN (concat rows'))
                = scores_of_sums (spec_totals (length rows) cfN (concat rows))).
  { unfold spec_totals. rewrite Hlen at 1.
    rewrite !spec_reshape_concat by done. do 2 f_equal.
    unfold spec_sum_over_frequency. clear -Hperm.
    induction Hperm as [|row row' rows rows' Hp _ IH]; [done|].
    simpl. f_equal; [symmetry; by apply sum_Permutation|done]. }
  destruct (decode_total (length rows) cfN (concat rows) [length (concat rows)] Hn)
    as (g & Hg & Hrun); [by apply length_concat_rows|].
  destruct (decode_total (length rows) cfN (concat rows')
              [length (concat rows')] Hn)
    as (g' & Hg' & Hrun'); [rewrite Hlen; by apply length_concat_rows|].
  rewrite Hsc in Hg', Hrun'. rewrite Hg in Hg'. injection Hg' as <-.
  eexists. eexists. split; [exact Hrun|]. split; [exact Hrun'|]. done.
Qed.

Lemma decode_frequency_order_irrelevant_witness :
  [[1; 2; 3]; [4; 0; 9]]%Z ≠ []
  ∧ Forall (fun row => length row = 3) [[1; 2; 3]; [4; 0; 9]]%Z
  ∧ Forall2 (fun row row' => row ≡ₚ row')
      [[1; 2; 3]; [4; 0; 9]]%Z [[2; 1; 3]; [4; 9; 0]]%Z
  ∧ ∃ r r',
      decode 2 3 (array1d (concat [[1; 2; 3]; [4; 0; 9]]%Z)) = Some r
      ∧ decode 2 3 (array1d (concat [[2; 1; 3]; [4; 9; 0]]%Z)) = Some r'
      ∧ count_of r' = count_of r
      ∧ index_guess_of r' = index_guess_of r.
Proof.
  assert (Hne : [[1; 2; 3]; [4; 0; 9]]%Z ≠ []) by discriminate.
  assert (Hrows : Forall (fun row => length row = 3) [[1; 2; 3]; [4; 0; 9]]%Z)
    by (repeat constructor).
  assert (Hperm : Forall2 (fun row row' => row ≡ₚ row')
            [[1; 2; 3]; [4; 0; 9]]%Z [[2; 1; 3]; [4; 9; 0]]%Z).
  { constructor; [apply perm_swap|].
    constructor; [apply perm_skip, perm_swap|constructor]. }
  split; [exact Hne|]. split; [exact Hrows|]. split; [exact Hperm|].
  apply (decode_frequency_order_irrelevant 3 _ _ Hne Hrows Hperm).
Defined.

(** * Further properties of the filter stages and of the wiring *)

(** ** Coincidence at the true location *)

Lemma wire_inputs (n cfN : nat) :
  ∃ C, wire (2 * (n * cfN)) n cfN = Some C
       ∧ ∀ i, i < n * cfN → inputs C i = [i; i + n * cfN].
Proof.
  destruct (wire_entries n cfN) as (C & Hrun & Hsrc & _ & HW).
  exists C. split; [done|]. intros i Hi.
  unfold inputs. rewrite Hsrc. apply filter_seq_two; [done|].
  intros j. rewrite HW. case_decide as Hd.
  - split; [tauto|]. intros _. by eexists.
  - split; [intros [? [=]]|]. intros Hj. destruct Hd. split; done.
Qed.

(** X8.  When the two impulse responses of the true location commute on the
    sound ("convolution is commutative"), the two inputs of every
    coincidence detector of the true location, one per centre frequency,
    carry the same signal. *)
Theorem coincidence_at_true_location {sample freq : Type}
    (convolve : list sample -> list sample -> list sample)
    (gammatone : freq -> list sample -> list sample)
    (f : sample -> sample) (cf : list freq)
    (hs : HRTFSet sample) (index : nat) (h0 : HRTF sample) (x : list sample) :
  hrtf hs !! index = Some h0 →
  convolve (left h0) (convolve (right h0) x)
  = convolve (right h0) (convolve (left h0) x) →
  ∃ fb C,
    cochlea convolve gammatone f cf hs index [x] = Some fb
    ∧ wire (length fb) (num_indices hs) (length cf) = Some C
    ∧ ∀ j, j < length cf →
        ∃ a b ch, inputs C (index * length cf + j) = [a; b]
                  ∧ fb !! a = Some ch ∧ fb !! b = Some ch.
Proof.
  intros Hh Hcomm. pose proof (lookup_lt_Some _ _ _ Hh) as Hi.
  destruct (cochlea_nchannels convolve gammatone f cf hs index x Hi)
    as (fb & Hfb & Hlen).
  destruct (cochlea_channels convolve gammatone f cf hs index h0 x Hh)
    as (fb' & Hfb' & Hch).
  rewrite Hfb in Hfb'. injection Hfb' as <-.
  destruct (wire_inputs (num_indices hs) (length cf)) as (C & Hrun & Hin).
  exists fb, C. split; [done|]. split; [by rewrite Hlen|].
  intros j Hj.
  assert (HiN : index * length cf + j < num_indices hs * length cf)
    by (unfold num_indices in *; nia).
  destruct (Hch _ HiN) as (h & c & Hlh & _ & Ha & Hb).
  assert (Hdiv : (index * length cf + j) / length cf = index).
  { rewrite Nat.add_comm, Nat.div_add by lia.
    rewrite Nat.div_small by done. done. }
  rewrite Hdiv, Hh in Hlh. injection Hlh as <-.
  eexists. eexists. eexists. split; [by apply Hin|].
  split; [exact Ha|]. by rewrite Hb, Hcomm.
Qed.

Lemma coincidence_at_true_location_witness :
  hrtf demo_hrtfset !! 1 = Some (mk_HRTF [3]%Z [5; 1]%Z)
  ∧ demo_convolve [3]%Z (demo_convolve [5; 1]%Z [1; 2; 0; -1]%Z)
    = demo_convolve [5; 1]%Z (demo_convolve [3]%Z [1; 2; 0; -1]%Z)
  ∧ ∃ fb C,
      cochlea demo_convolve demo_gain Z.abs [10; 100; 1000]%Z demo_hrtfset 1
        [[1; 2; 0; -1]%Z] = Some fb
      ∧ wire (length fb) (num_indices demo_hrtfset) 3 = Some C
      ∧ ∀ j, j < 3 →
          ∃ a b ch, inputs C (1 * 3 + j) = [a; b]
                    ∧ fb !! a = Some ch ∧ fb !! b = Some ch.
Proof.
  split; [reflexivity|]. split; [reflexivity|].
  apply (coincidence_at_true_location demo_convolve demo_gain Z.abs
           [10; 100; 1000]%Z demo_hrtfset 1 (mk_HRTF [3]%Z [5; 1]%Z)
           [1; 2; 0; -1]%Z); reflexivity.
Defined.

(** ** When the wiring loop returns *)

Lemma wire_body_dims (N : nat) (C C' : Connection) (i : nat) :
  wire_body N C i = Some C' → nsrc C' = nsrc C ∧ ntgt C' = ntgt C.
Proof.
  unfold wire_body, setitem. case_decide; [|done]. rewrite bind_Some. simpl.
  case_decide; [|done]. by intros [= <-].
Qed.

Lemma wire_body_out_of_range (N : nat) (C : Connection) (i : nat) :
  nsrc C ≤ i + N → wire_body N C i = None.
Proof.
  intros Hout. unfold wire_body, setitem. case_decide; [|done].
  rewrite bind_Some. simpl. by rewrite decide_False by lia.
Qed.

Lemma wire_loop_fails (N : nat) (l : list nat) (C : Connection) (i0 : nat) :
  i0 ∈ l → nsrc C ≤ i0 + N → for_each (wire_body N) C l = None.
Proof.
  revert C. induction l as [|i l IH]; intros C Hin Hout.
  - by apply elem_of_nil in Hin.
  - cbn [for_each]. destruct (wire_body N C i) as [C'|] eqn:Hbody; [|done].
    rewrite bind_Some. apply elem_of_cons in Hin as [->|Hin].
    + by rewrite wire_body_out_of_range in Hbody.
    + apply IH; [done|]. by rewrite (proj1 (wire_body_dims _ _ _ _ Hbody)).
Qed.

(** X9.  The loop runs to its end exactly when there is no detector at all or
    [G] has at least twice as many units as there are detectors; a smaller
    [G] ends it with an [IndexError]. *)
Theorem wire_returns_iff (lenG n cfN : nat) :
  is_Some (wire lenG n cfN) ↔ n * cfN = 0 ∨ 2 * (n * cfN) ≤ lenG.
Proof.
  unfold wire. split.
  - intros Hret.
    destruct (decide (n * cfN = 0 ∨ 2 * (n * cfN) ≤ lenG)) as [|Hno]; [done|].
    rewrite (wire_loop_fails (n * cfN) _ _ (lenG - n * cfN)) in Hret.
    + by destruct Hret.
    + apply elem_of_seq. lia.
    + simpl. lia.
  - intros [Hzero|Hfit].
    + rewrite Hzero. by eexists.
    + destruct (wire_loop (n * cfN) (n * cfN) 0 (Connection_new lenG (n * cfN)))
        as (C & -> & _); [lia|simpl; lia|done|]. by eexists.
Qed.

(** ** The wiring seen from the source units *)

Lemma wire_loop_size (N len a : nat) (C : Connection) :
  a + len ≤ N → 2 * N ≤ nsrc C → ntgt C = N →
  (∀ j i, a ≤ i → W C !! (j, i) = None) →
  ∃ C', for_each (wire_body N) C (seq a len) = Some C'
        ∧ size (W C') = size (W C) + 2 * len.
Proof.
  revert a C. induction len as [|len IH]; intros a C Ha Hs Ht Hfresh.
  - exists C. split; [done|]. lia.
  - cbn [seq for_each].
    rewrite wire_body_Some by lia. rewrite bind_Some.
    set (C1 := mk_Connection _ _ _).
    destruct (IH (S a) C1) as (C' & Hrun & Hsize); [lia|done|done| |].
    + intros j i Hi. subst C1. cbn [W].
      rewrite !lookup_insert_ne by (intros [= ? ?]; lia). apply Hfresh. lia.
    + exists C'. split; [done|]. rewrite Hsize. subst C1. cbn [W].
      rewrite map_size_insert_None.
      * rewrite map_size_insert_None by (apply Hfresh; lia). lia.
      * rewrite lookup_insert_ne by (intros [= ?]; lia). apply Hfresh. lia.
Qed.

Lemma filter_seq_one (P : nat -> Prop) `{∀ j, Decision (P j)} (len i : nat) :
  i < len → (∀ j, P j ↔ j = i) → filter P (seq 0 len) = [i].
Proof.
  intros Hi HP.
  replace len with (i + (1 + (len - i - 1))) by lia.
  rewrite !seq_app, !filter_app. simpl.
  rewrite (filter_seq_none P 0 i) by (intros j Hj; rewrite HP; lia).
  rewrite filter_cons_True by (by rewrite HP).
  rewrite (filter_seq_none P _ (len - i - 1)) by (intros j Hj; rewrite HP; lia).
  done.
Qed.

(** X10.  The loop writes [2N] weights, and every unit of [G] drives exactly one
    coincidence detector: unit [i] below [N] drives detector [i], unit
    [i] from [N] on drives detector [i - N]. *)
Theorem wire_one_target_per_source (n cfN : nat) :
  ∃ C, wire (2 * (n * cfN)) n cfN = Some C
       ∧ size (W C) = 2 * (n * cfN)
       ∧ ∀ i, i < 2 * (n * cfN) →
           targets C i = [if decide (i < n * cfN) then i else i - n * cfN].
Proof.
  destruct (wire_entries n cfN) as (C & Hrun & Hsrc & Htgt & HW).
  exists C. split; [done|]. split.
  - destruct (wire_loop_size (n * cfN) (n * cfN) 0
                (Connection_new (2 * (n * cfN)) (n * cfN)))
      as (C' & Hrun' & Hsize); [lia|simpl; lia|done|done|].
    unfold wire in Hrun. rewrite Hrun in Hrun'. injection Hrun' as <-.
    rewrite Hsize. simpl. rewrite map_size_empty. lia.
  - intros i Hi. unfold targets. rewrite Htgt.
    apply filter_seq_one; [case_decide; lia|].
    intros j. rewrite HW. case_decide as Hd.
    + split; [|intros _; by eexists]. intros _. case_decide; lia.
    + split; [intros [? [=]]|]. intros ->. destruct Hd. case_decide; lia.
Qed.

Lemma wire_one_target_per_source_witness :
  8 < 2 * (2 * 3)
  ∧ ∃ C, wire (2 * (2 * 3)) 2 3 = Some C
         ∧ size (W C) = 2 * (2 * 3)
         ∧ targets C 8 = [2].
Proof.
  split; [lia|].
  destruct (wire_one_target_per_source 2 3) as (C & Hrun & Hsize & Htargets).
  exists C. split; [exact Hrun|]. split; [exact Hsize|].
  apply (Htargets 8). lia.
Defined.

(** * Further properties of the cochlear nonlinearity *)

(** X11.  The nonlinearity never decreases: a louder sample gives an output at
    least as large. *)
Theorem cochlea_fn_monotone (x y : R) :
  (x <= y)%R → (cochlea_fn x <= cochlea_fn y)%R.
Proof.
  intros Hxy. rewrite !cochlea_fn_closed.
  destruct (Rlt_dec 0 x) as [Hpx|Hzx];
    destruct (Rlt_dec 0 y) as [Hpy|Hzy]; try lra.
  - apply Rmult_le_compat_l; [lra|].
    apply Rle_Rpower_l; lra.
  - apply Rmult_le_pos; [lra|]. unfold Rpower. left. apply exp_pos.
Qed.

Lemma cochlea_fn_monotone_witness :
  (1 <= 8)%R ∧ (cochlea_fn 1 <= cochlea_fn 8)%R.
Proof. split; [lra|]. apply (cochlea_fn_monotone 1 8). lra. Defined.
